(** * Correlation engine (src/correlation.ts): shallow embedding and properties

    The engine groups a batch of normalized events into episodes and builds a
    typed causal graph inside each episode.  The embedding follows the
    TypeScript class [CorrelationEngine] method by method.

    Conventions of the embedding:
    - an optional field ([z.string().optional()], [x?.f]) is an [option];
      [None] is JavaScript's [undefined];
    - a JavaScript [Map] is an association list in insertion order;
    - [Array.prototype.sort] is a stable sort driven by the sign of the
      comparator's result;
    - [String.prototype.localeCompare], the collation of the host, is a
      parameter of the engine, as are [Date] parsing, [generateId] and the
      [Storage] collaborator, which are defined in other modules; what a
      property needs of the collation is a hypothesis of that property. *)

From Stdlib Require Import List String Ascii ZArith Bool Arith Lia.
From Stdlib Require Import Permutation Sorted OrderedTypeEx.
Import ListNotations.

Local Open Scope string_scope.
Local Open Scope Z_scope.
Local Open Scope list_scope.

(* ================================================================== *)
(** ** Data model (the zod schemas of the types module)                *)
(* ================================================================== *)

Inductive SourceSystem :=
  | sys_github | sys_kubernetes | sys_otel | sys_iam | sys_feature_flag | sys_custom.

Record Source := mkSource {
  source_system : SourceSystem;
  source_adapter : string;
  source_instance : option string
}.

Inductive ActorType := actor_user | actor_service | actor_system.

Record Actor := mkActor {
  actor_type : ActorType;
  actor_id : string;
  actor_display : string;
  actor_org : option string
}.

Inductive TargetType :=
  | target_service | target_env | target_resource | target_model
  | target_feature | target_user.

Record Target := mkTarget {
  target_type : TargetType;
  target_id : string;
  target_display : string;
  target_env_name : option string;
  target_region : option string
}.

Inductive EventKind :=
  | DEPLOYMENT | FEATURE_FLAG | MODEL_DECISION | ACCESS_GRANT | ACCESS_REVOKE
  | INCIDENT | PR_MERGED | PR_OPENED | PR_APPROVED | CONFIG_CHANGE | TRACE
  | CUSTOM.

Inductive Outcome := SUCCESS | FAILURE | UNKNOWN | PENDING.

Record Correlation := mkCorrelation {
  trace_id : option string;
  commit_sha : option string;
  pr_number : option string;
  ticket_id : option string;
  deployment_id : option string;
  parent_event_id : option string
}.

Record Evidence := mkEvidence {
  raw_ref : string;
  evidence_hash : string
}.

(** The [attributes] bag is opaque to the engine; its values are kept as
    strings here. *)
Record NormalizedEvent := mkEvent {
  event_id : string;
  time : string;
  source : Source;
  kind : EventKind;
  actor : Actor;
  target : Target;
  action : string;
  outcome : Outcome;
  correlation : option Correlation;
  attributes : option (list (string * string));
  evidence : option Evidence
}.

Inductive EpisodeType :=
  | DeploymentEpisode | FlagEpisode | AccessEpisode | IncidentEpisode
  | PRMergeEpisode | CustomEpisode.

Inductive EdgeType := CAUSES | TRIGGERS | RELATES_TO | FOLLOWS.

Record GraphEdge := mkEdge {
  edge_from : string;
  edge_to : string;
  edge_type : EdgeType
}.

Record EpisodeGraph := mkGraph {
  nodes : list string;
  edges : list GraphEdge
}.

Record Episode := mkEpisode {
  episode_id : string;
  episode_type : EpisodeType;
  start_time : string;
  end_time : string;
  primary_actor : option Actor;
  primary_target : option Target;
  events : list string;
  graph : EpisodeGraph
}.

(* ================================================================== *)
(** ** JavaScript primitives used by the engine                        *)
(* ================================================================== *)

Definition EventKind_eqb (a b : EventKind) : bool :=
  match a, b with
  | DEPLOYMENT, DEPLOYMENT | FEATURE_FLAG, FEATURE_FLAG
  | MODEL_DECISION, MODEL_DECISION | ACCESS_GRANT, ACCESS_GRANT
  | ACCESS_REVOKE, ACCESS_REVOKE | INCIDENT, INCIDENT
  | PR_MERGED, PR_MERGED | PR_OPENED, PR_OPENED | PR_APPROVED, PR_APPROVED
  | CONFIG_CHANGE, CONFIG_CHANGE | TRACE, TRACE | CUSTOM, CUSTOM => true
  | _, _ => false
  end.

(** The string each member of the [EventKind] enum is at run time. *)
Definition kind_name (k : EventKind) : string :=
  match k with
  | DEPLOYMENT => "DEPLOYMENT"
  | FEATURE_FLAG => "FEATURE_FLAG"
  | MODEL_DECISION => "MODEL_DECISION"
  | ACCESS_GRANT => "ACCESS_GRANT"
  | ACCESS_REVOKE => "ACCESS_REVOKE"
  | INCIDENT => "INCIDENT"
  | PR_MERGED => "PR_MERGED"
  | PR_OPENED => "PR_OPENED"
  | PR_APPROVED => "PR_APPROVED"
  | CONFIG_CHANGE => "CONFIG_CHANGE"
  | TRACE => "TRACE"
  | CUSTOM => "CUSTOM"
  end.

(** [s.startsWith(p)]. *)
Definition startsWith (s p : string) : bool := String.prefix p s.

(** Truthiness of a value of type [string | undefined]: [undefined] and the
    empty string are falsy. *)
Definition truthy (o : option string) : bool :=
  match o with
  | None => false
  | Some s => negb (String.eqb s EmptyString)
  end.

(** [a === b] on values of type [string | undefined]. *)
Definition strict_eq (a b : option string) : bool :=
  match a, b with
  | None, None => true
  | Some x, Some y => String.eqb x y
  | _, _ => false
  end.

(** A value of type [string | undefined] inside a template literal. *)
Definition template (o : option string) : string :=
  match o with
  | None => "undefined"
  | Some s => s
  end.

(** [c?.f] for the optional correlation bag [c]. *)
Definition corr (f : Correlation -> option string) (e : NormalizedEvent)
  : option string :=
  match correlation e with
  | None => None
  | Some c => f c
  end.

(** [keys.includes(k)]. *)
Definition includes (keys : list string) (k : string) : bool :=
  existsb (String.eqb k) keys.

(** [xs.sort(cmp)]: stable; [x] stays in front of [y] when [cmp x y <= 0]. *)
Fixpoint sort_insert {A : Type} (cmp : A -> A -> Z) (x : A) (l : list A)
  : list A :=
  match l with
  | [] => [x]
  | y :: r => if cmp x y <=? 0 then x :: y :: r else y :: sort_insert cmp x r
  end.

Definition Array_sort {A : Type} (cmp : A -> A -> Z) (l : list A) : list A :=
  fold_right (sort_insert cmp) [] l.

(** A [Map<string, V>]: entries in insertion order, keys pairwise distinct. *)
Definition JsMap (V : Type) : Type := list (string * V).

Fixpoint Map_has {V : Type} (m : JsMap V) (k : string) : bool :=
  match m with
  | [] => false
  | (k', _) :: r => String.eqb k' k || Map_has r k
  end.

Fixpoint Map_get {V : Type} (m : JsMap V) (k : string) : option V :=
  match m with
  | [] => None
  | (k', v) :: r => if String.eqb k' k then Some v else Map_get r k
  end.

(** [m.set(k, v)]: an existing key keeps its position. *)
Fixpoint Map_set {V : Type} (m : JsMap V) (k : string) (v : V) : JsMap V :=
  match m with
  | [] => [(k, v)]
  | (k', v') :: r =>
      if String.eqb k' k then (k', v) :: r else (k', v') :: Map_set r k v
  end.

(** [m.get(k)!.push(x)] for a map of arrays. *)
Fixpoint Map_push {V : Type} (m : JsMap (list V)) (k : string) (x : V)
  : JsMap (list V) :=
  match m with
  | [] => []
  | (k', xs) :: r =>
      if String.eqb k' k then (k', xs ++ [x]) :: r
      else (k', xs) :: Map_push r k x
  end.

(** A [Set<string>]. *)
Definition Set_has (s : list string) (k : string) : bool :=
  existsb (String.eqb k) s.

Definition Set_add (s : list string) (k : string) : list string :=
  if Set_has s k then s else s ++ [k].

(* ================================================================== *)
(** ** Key extraction                                                  *)
(* ================================================================== *)

(** [CorrelationEngine.getCorrelationKeys] *)
Definition getCorrelationKeys (event : NormalizedEvent) : list string :=
  (if truthy (corr deployment_id event)
   then [("deployment:" ++ template (corr deployment_id event))%string]
   else [])
  ++ (if truthy (corr pr_number event)
      then [("pr:" ++ template (source_instance (source event)) ++ ":"
               ++ template (corr pr_number event))%string]
      else [])
  ++ (if truthy (corr commit_sha event)
      then [("commit:" ++ template (corr commit_sha event))%string]
      else [])
  ++ (if truthy (corr trace_id event)
      then [("trace:" ++ template (corr trace_id event))%string]
      else [])
  ++ (if truthy (corr ticket_id event)
      then [("ticket:" ++ template (corr ticket_id event))%string]
      else []).

(* ================================================================== *)
(** ** Grouping                                                        *)
(* ================================================================== *)

Definition Groups : Type := JsMap (list NormalizedEvent).

(** The two inner loops of [groupEvents] for one correlation key: walk the
    groups in insertion order; a group one of whose events carries [key]
    sets [groupKey]; the walk stops as soon as [groupKey] is truthy. *)
Fixpoint scanGroups (key : string) (groups : Groups) (groupKey : option string)
  : option string :=
  match groups with
  | [] => groupKey
  | (existingGroupKey, existingEvents) :: rest =>
      let groupKey' :=
        if existsb (fun existingEvent =>
                      includes (getCorrelationKeys existingEvent) key)
                   existingEvents
        then Some existingGroupKey else groupKey in
      if truthy groupKey' then groupKey' else scanGroups key rest groupKey'
  end.

(** The loop over the event's own correlation keys. *)
Fixpoint scanKeys (correlationKeys : list string) (groups : Groups)
                  (groupKey : option string) : option string :=
  match correlationKeys with
  | [] => groupKey
  | key :: rest =>
      let groupKey' := scanGroups key groups groupKey in
      if truthy groupKey' then groupKey' else scanKeys rest groups groupKey'
  end.

(** [correlationKeys[0] || `event:${event.id}`] *)
Definition fallbackKey (correlationKeys : list string) (event : NormalizedEvent)
  : string :=
  match correlationKeys with
  | k :: _ => if truthy (Some k) then k else ("event:" ++ event_id event)%string
  | [] => ("event:" ++ event_id event)%string
  end.

(** One iteration of the outer loop of [groupEvents].  The [eventToGroup] map
    of the source is written and never read; it is left out. *)
Definition groupStep (groups : Groups) (event : NormalizedEvent) : Groups :=
  let correlationKeys := getCorrelationKeys event in
  let found := scanKeys correlationKeys groups None in
  let groupKey :=
    match found with
    | Some k => if truthy found then k else fallbackKey correlationKeys event
    | None => fallbackKey correlationKeys event
    end in
  let groups1 :=
    if Map_has groups groupKey then groups else Map_set groups groupKey [] in
  Map_push groups1 groupKey event.

Definition seedGroups (events : list NormalizedEvent) : Groups :=
  fold_left groupStep events [].

(** [CorrelationEngine.groupsAreRelated] *)
Definition groupsAreRelated (group1 group2 : list NormalizedEvent) : bool :=
  let keys1 := flat_map getCorrelationKeys group1 in
  let keys2 := flat_map getCorrelationKeys group2 in
  existsb (fun k => Set_has keys1 k) keys2.

Section Merge.

(** [a.localeCompare(b)]: negative, zero or positive, as the collation of
    the host orders [a] and [b]. *)
Variable localeCompare : string -> string -> Z.

(** The comparator [(a, b) => a.time.localeCompare(b.time)]. *)
Definition byTime (a b : NormalizedEvent) : Z := localeCompare (time a) (time b).

(** The groups merged into the one with key [key]: every other group not yet
    processed that shares a key with [events]. *)
Definition relatedOthers (groups : Groups) (processed : list string)
                         (key : string) (events : list NormalizedEvent)
  : Groups :=
  filter (fun entry =>
            negb (String.eqb (fst entry) key || Set_has processed (fst entry))
            && groupsAreRelated events (snd entry))
         groups.

(** One iteration of the outer loop of [mergeRelatedGroups]; the state is the
    pair of [merged] and [processed]. *)
Definition mergeStep (groups : Groups) (st : Groups * list string)
                     (entry : string * list NormalizedEvent)
  : Groups * list string :=
  let '(merged, processed) := st in
  let '(key, events) := entry in
  if Set_has processed key then st
  else
    let others := relatedOthers groups processed key events in
    let relatedEvents := events ++ List.concat (map snd others) in
    let toMerge := key :: map fst others in
    let processed' := fold_left Set_add toMerge processed in
    (Map_set merged key (Array_sort byTime relatedEvents), processed').

(** [CorrelationEngine.mergeRelatedGroups] *)
Definition mergeRelatedGroups (groups : Groups) : Groups :=
  fst (fold_left (mergeStep groups) groups ([], [])).

(** [CorrelationEngine.groupEvents] *)
Definition groupEvents (events : list NormalizedEvent) : Groups :=
  mergeRelatedGroups (seedGroups events).

End Merge.

(* ================================================================== *)
(** ** Episode type                                                    *)
(* ================================================================== *)

(** [kinds.has(k)] for [kinds = new Set(events.map(e => e.kind))]. *)
Definition kinds_has (kinds : list EventKind) (k : EventKind) : bool :=
  existsb (EventKind_eqb k) kinds.

(** [CorrelationEngine.determineEpisodeType] *)
Definition determineEpisodeType (events : list NormalizedEvent) : EpisodeType :=
  let kinds := map kind events in
  if kinds_has kinds DEPLOYMENT then DeploymentEpisode
  else if kinds_has kinds FEATURE_FLAG then FlagEpisode
  else if kinds_has kinds ACCESS_GRANT || kinds_has kinds ACCESS_REVOKE
       then AccessEpisode
  else if kinds_has kinds INCIDENT then IncidentEpisode
  else if kinds_has kinds PR_MERGED then PRMergeEpisode
  else CustomEpisode.

(* ================================================================== *)
(** ** Effects: fresh identifiers, exceptions, the storage collaborator *)
(* ================================================================== *)

Inductive Exn := TypeError | StorageFailure.

Inductive Completion (A : Type) : Type :=
  | Normal (a : A)
  | Throw (e : Exn).
Arguments Normal {A} a.
Arguments Throw {A} e.

(** What a call of the engine can change: the identifier generator and the
    contents of the storage collaborator. *)
Record World (Store : Type) := mkWorld {
  next_id : nat;
  store : Store
}.
Arguments mkWorld {Store} _ _.
Arguments next_id {Store} _.
Arguments store {Store} _.

Definition M (Store A : Type) : Type :=
  World Store -> Completion A * World Store.

Definition ret {Store A : Type} (a : A) : M Store A :=
  fun w => (Normal a, w).

Definition bind {Store A B : Type} (m : M Store A) (k : A -> M Store B)
  : M Store B :=
  fun w =>
    match m w with
    | (Normal a, w') => k a w'
    | (Throw e, w') => (Throw e, w')
    end.

Definition throw {Store A : Type} (e : Exn) : M Store A :=
  fun w => (Throw e, w).

Notation "x <- m ;; k" := (bind m (fun x => k))
  (at level 61, m at next level, right associativity).

(* ================================================================== *)
(** ** Instances used in the examples                                  *)
(* ================================================================== *)

(** A collation for the examples: the order of the code units, which is
    how time stamps of the one fixed format [YYYY-MM-DDTHH:MM:SSZ] compare. *)
Definition lexCompare (a b : string) : Z :=
  match String.compare a b with
  | Lt => -1
  | Eq => 0
  | Gt => 1
  end.




(** An identifier generator: [ep0], [ep1], ... *)
Definition demoId (n : nat) : string :=
  ("ep" ++ String (ascii_of_nat (48 + n)) EmptyString)%string.

Definition digit (c : ascii) : option Z :=
  let n := Z.of_nat (nat_of_ascii c) in
  if (48 <=? n) && (n <=? 57) then Some (n - 48) else None.

Fixpoint digits (cs : list ascii) (acc : Z) : option Z :=
  match cs with
  | [] => Some acc
  | c :: r =>
      match digit c with
      | Some d => digits r (10 * acc + d)
      | None => None
      end
  end.

(** Days between 1970-01-01 and the civil date [y-m-d]. *)
Definition daysFromCivil (y m d : Z) : Z :=
  let y' := if m <=? 2 then y - 1 else y in
  let era := y' / 400 in
  let yoe := y' - era * 400 in
  let mp := if m <=? 2 then m + 9 else m - 3 in
  let doy := (153 * mp + 2) / 5 + d - 1 in
  let doe := yoe * 365 + yoe / 4 - yoe / 100 + doy in
  era * 146097 + doe - 719468.

(** [new Date(s).getTime()] on the UTC time stamps [YYYY-MM-DDTHH:MM:SSZ];
    [None] stands for [NaN]. *)
Definition isoTime (s : string) : option Z :=
  match list_ascii_of_string s with
  | [y1; y2; y3; y4; "-"%char; m1; m2; "-"%char; d1; d2; "T"%char;
     h1; h2; ":"%char; n1; n2; ":"%char; s1; s2; "Z"%char] =>
      match digits [y1; y2; y3; y4] 0, digits [m1; m2] 0, digits [d1; d2] 0,
            digits [h1; h2] 0, digits [n1; n2] 0, digits [s1; s2] 0 with
      | Some y, Some m, Some d, Some h, Some n, Some sec =>
          Some ((((daysFromCivil y m d * 24 + h) * 60 + n) * 60 + sec) * 1000)
      | _, _, _, _, _, _ => None
      end
  | _ => None
  end.

(** An in-memory store of episodes that accepts [capacity] episodes and
    throws on every write after that. *)
Definition boundedSave (capacity : nat) (episode : Episode)
                       (st : list Episode)
  : Completion unit * list Episode :=
  if (List.length st <? capacity)%nat then (Normal tt, st ++ [episode])
  else (Throw StorageFailure, st).

(** An in-memory store of episodes that acknowledges every write. *)
Definition appendSave (episode : Episode) (st : list Episode)
  : Completion unit * list Episode :=
  (Normal tt, st ++ [episode]).

(* ================================================================== *)
(** ** The engine                                                      *)
(* ================================================================== *)

Section Engine.

(** [a.localeCompare(b)]: negative, zero or positive. *)
Variable localeCompare : string -> string -> Z.

(** [generateId()] returns [ulid n] at the [n]-th call. *)
Variable ulid : nat -> string.

(** [new Date(s).getTime()]: milliseconds since the epoch, [None] for [NaN].
    Valid dates lie within 8.64e15 ms of the epoch, so differences of two
    of them are exact. *)
Variable Date_getTime : string -> option Z.

(** The [Storage] collaborator: its state and its [saveEpisode]. *)
Variable Store : Type.
Variable saveEpisode : Episode -> Store -> Completion unit * Store.

Definition generateId : M Store string :=
  fun w => (Normal (ulid (next_id w)), mkWorld (S (next_id w)) (store w)).

Definition storage_saveEpisode (episode : Episode) : M Store unit :=
  fun w =>
    let '(r, s) := saveEpisode episode (store w) in
    (r, mkWorld (next_id w) s).

(** *** Causal graph *)

Definition rule1 (earlier later : NormalizedEvent) : bool :=
  EventKind_eqb (kind earlier) PR_MERGED
  && EventKind_eqb (kind later) DEPLOYMENT
  && strict_eq (corr commit_sha earlier) (corr commit_sha later).

Definition rule2 (earlier later : NormalizedEvent) : bool :=
  EventKind_eqb (kind earlier) DEPLOYMENT
  && EventKind_eqb (kind later) TRACE
  && strict_eq (corr deployment_id earlier) (corr deployment_id later).

Definition rule3 (earlier later : NormalizedEvent) : bool :=
  EventKind_eqb (kind earlier) FEATURE_FLAG
  && EventKind_eqb (kind later) TRACE.

Definition rule4 (earlier later : NormalizedEvent) : bool :=
  startsWith (kind_name (kind earlier)) "PR_"
  && startsWith (kind_name (kind later)) "PR_"
  && strict_eq (corr pr_number earlier) (corr pr_number later).

Definition rule5 (earlier later : NormalizedEvent) : bool :=
  truthy (corr trace_id earlier)
  && strict_eq (corr trace_id earlier) (corr trace_id later).

Definition rule6 (earlier later : NormalizedEvent) : bool :=
  truthy (corr deployment_id earlier)
  && strict_eq (corr deployment_id earlier) (corr deployment_id later).

(** [new Date(later.time).getTime() - new Date(earlier.time).getTime()] *)
Definition timeDiff (earlier later : NormalizedEvent) : option Z :=
  match Date_getTime (time later), Date_getTime (time earlier) with
  | Some l, Some e => Some (l - e)
  | _, _ => None
  end.

(** [timeDiff < 5 * 60 * 1000]; a comparison with [NaN] is false. *)
Definition withinFiveMinutes (d : option Z) : bool :=
  match d with
  | Some ms => ms <? 5 * 60 * 1000
  | None => false
  end.

Definition rule7 (earlier later : NormalizedEvent) : bool :=
  withinFiveMinutes (timeDiff earlier later)
  && String.eqb (target_id (target earlier)) (target_id (target later)).

(** [CorrelationEngine.inferRelationship]; [None] is [null]. *)
Definition inferRelationship (earlier later : NormalizedEvent)
  : option EdgeType :=
  if rule1 earlier later then Some CAUSES
  else if rule2 earlier later then Some TRIGGERS
  else if rule3 earlier later then Some TRIGGERS
  else if rule4 earlier later then Some FOLLOWS
  else if rule5 earlier later then Some RELATES_TO
  else if rule6 earlier later then Some RELATES_TO
  else if rule7 earlier later then Some FOLLOWS
  else None.

(** The inner loop of [buildCausalGraph]: [event] against every later one. *)
Fixpoint edgesFrom (event : NormalizedEvent) (laterEvents : list NormalizedEvent)
  : list GraphEdge :=
  match laterEvents with
  | [] => []
  | laterEvent :: rest =>
      match inferRelationship event laterEvent with
      | Some relationship =>
          mkEdge (event_id event) (event_id laterEvent) relationship
          :: edgesFrom event rest
      | None => edgesFrom event rest
      end
  end.

Fixpoint allEdges (evs : list NormalizedEvent) : list GraphEdge :=
  match evs with
  | [] => []
  | event :: rest => edgesFrom event rest ++ allEdges rest
  end.

(** [CorrelationEngine.buildCausalGraph] *)
Definition buildCausalGraph (evs : list NormalizedEvent) : EpisodeGraph :=
  mkGraph (map event_id evs) (allEdges evs).

(** *** Episode assembly *)

(** One iteration of a counting loop of [createEpisode]: the entry of [key]
    is incremented in place, or created with count 1 and the value seen. *)
Definition tally {V : Type} (counts : JsMap (V * Z)) (key : string) (v : V)
  : JsMap (V * Z) :=
  match Map_get counts key with
  | Some (v0, n) => Map_set counts key (v0, n + 1)
  | None => Map_set counts key (v, 1)
  end.

Definition byCountDesc {V : Type} (a b : V * Z) : Z := snd b - snd a.

(** [Array.from(counts.values()).sort((a, b) => b.count - a.count)[0]?.v] *)
Definition mostCommon {V : Type} (counts : JsMap (V * Z)) : option V :=
  match Array_sort byCountDesc (map snd counts) with
  | [] => None
  | top :: _ => Some (fst top)
  end.

Definition actorCounts (evs : list NormalizedEvent) : JsMap (Actor * Z) :=
  fold_left (fun counts event => tally counts (actor_id (actor event)) (actor event))
            evs [].

Definition targetCounts (evs : list NormalizedEvent) : JsMap (Target * Z) :=
  fold_left (fun counts event => tally counts (target_id (target event)) (target event))
            evs [].

(** [CorrelationEngine.createEpisode].  In the object literal the identifier
    is drawn first; [sortedEvents[0].time] throws a [TypeError] on an empty
    group. *)
Definition createEpisode (evs : list NormalizedEvent) (type : EpisodeType)
  : M Store Episode :=
  let sortedEvents := Array_sort (byTime localeCompare) evs in
  let graph := buildCausalGraph sortedEvents in
  let primaryActor := mostCommon (actorCounts evs) in
  let primaryTarget := mostCommon (targetCounts evs) in
  id <- generateId ;;
  match sortedEvents with
  | [] => throw TypeError
  | first :: _ =>
      ret (mkEpisode id type (time first)
             (time (last sortedEvents first))
             primaryActor primaryTarget
             (map event_id sortedEvents) graph)
  end.

(** [ep] is the episode [createEpisode] returns for the group [evs]. *)
Definition assembledFrom (evs : list NormalizedEvent) (ep : Episode) : Prop :=
  exists w0 w1,
    createEpisode evs (determineEpisodeType evs) w0 = (Normal ep, w1).

(** [Saved s eps s']: writing the episodes [eps] one after the other, starting
    in the storage state [s], is acknowledged every time and ends in [s']. *)
Inductive Saved : Store -> list Episode -> Store -> Prop :=
  | Saved_nil (s : Store) : Saved s [] s
  | Saved_cons (s s1 s2 : Store) (ep : Episode) (eps : list Episode) :
      saveEpisode ep s = (Normal tt, s1) ->
      Saved s1 eps s2 ->
      Saved s (ep :: eps) s2.

(** The loop of [correlate] over the entries of [eventGroups]. *)
Fixpoint correlateLoop (eventGroups : Groups) (newEpisodes : list Episode)
  : M Store (list Episode) :=
  match eventGroups with
  | [] => ret newEpisodes
  | (_, groupedEvents) :: rest =>
      let episodeType := determineEpisodeType groupedEvents in
      episode <- createEpisode groupedEvents episodeType ;;
      _ <- storage_saveEpisode episode ;;
      correlateLoop rest (newEpisodes ++ [episode])
  end.

(** [CorrelationEngine.correlate] *)
Definition correlate (evs : list NormalizedEvent) : M Store (list Episode) :=
  correlateLoop (groupEvents localeCompare evs) [].

End Engine.

(* ================================================================== *)
(** ** Recompute                                                       *)
(* ================================================================== *)

(** The filter [recompute] hands to [storage.queryEvents]; the filter's
    other fields stay [undefined] there. *)
Record EventQuery := mkEventQuery {
  query_startTime : option string;
  query_endTime : option string;
  query_limit : option Z
}.

(** The optional argument of [recompute]. *)
Record TimeRange := mkTimeRange {
  startTime : option string;
  endTime : option string
}.

Section Recompute.

Variable localeCompare : string -> string -> Z.
Variable ulid : nat -> string.
Variable Date_getTime : string -> option Z.
Variable Store : Type.
Variable saveEpisode : Episode -> Store -> Completion unit * Store.

(** The [queryEvents] of the [Storage] collaborator. *)
Variable queryEvents :
  EventQuery -> Store -> Completion (list NormalizedEvent) * Store.

Definition storage_queryEvents (filter : EventQuery)
  : M Store (list NormalizedEvent) :=
  fun w =>
    let '(r, s) := queryEvents filter (store w) in
    (r, mkWorld (next_id w) s).

(** [query?.startTime], [query?.endTime] *)
Definition range (f : TimeRange -> option string) (query : option TimeRange)
  : option string :=
  match query with
  | None => None
  | Some q => f q
  end.

(** [CorrelationEngine.recompute] *)
Definition recompute (query : option TimeRange) : M Store (list Episode) :=
  evs <- storage_queryEvents
           (mkEventQuery (range startTime query) (range endTime query)
                         (Some 10000)) ;;
  correlate localeCompare ulid Date_getTime Store saveEpisode evs.

End Recompute.

(** A store of events and episodes kept in memory: [queryEvents] returns the
    stored events up to the filter's limit. *)
Definition memoryQuery (stored : list NormalizedEvent) (filter : EventQuery)
                       (st : list Episode)
  : Completion (list NormalizedEvent) * list Episode :=
  (Normal (match query_limit filter with
           | Some n => firstn (Z.to_nat n) stored
           | None => stored
           end), st).

(* ================================================================== *)
(** ** Specification-side definitions                                  *)
(* ================================================================== *)

(** The five key slots of the key extractor, in priority order: how the key
    is written from the field's value, and the field. *)
Definition keySlots (event : NormalizedEvent)
  : list ((string -> string) * option string) :=
  [ (fun v => ("deployment:" ++ v)%string, corr deployment_id event);
    (fun v => ("pr:" ++ template (source_instance (source event)) ++ ":"
                 ++ v)%string,
     corr pr_number event);
    (fun v => ("commit:" ++ v)%string, corr commit_sha event);
    (fun v => ("trace:" ++ v)%string, corr trace_id event);
    (fun v => ("ticket:" ++ v)%string, corr ticket_id event) ].

(** The key list as the specification words it: a slot is left out when its
    field is absent. *)
Definition keysOmittingAbsent (event : NormalizedEvent) : list string :=
  flat_map (fun slot =>
              match snd slot with
              | Some v => [fst slot v]
              | None => []
              end)
           (keySlots event).

(** The same with a field that holds the empty string left out as well. *)
Definition keysOmittingEmpty (event : NormalizedEvent) : list string :=
  flat_map (fun slot =>
              match snd slot with
              | Some v => if String.eqb v EmptyString then [] else [fst slot v]
              | None => []
              end)
           (keySlots event).

(** Sample events of the scenarios. *)
Definition sampleSource : Source := mkSource sys_github "github" None.
Definition alice : Actor := mkActor actor_user "alice" "Alice" None.
Definition bob : Actor := mkActor actor_user "bob" "Bob" None.
Definition ci : Actor := mkActor actor_service "ci" "CI" None.
Definition appService : Target :=
  mkTarget target_service "app" "App" None None.
Definition db : Target := mkTarget target_resource "db" "Database" None None.

Definition bag (trace commit pr ticket deployment : option string)
  : option Correlation :=
  Some (mkCorrelation trace commit pr ticket deployment None).

Definition sampleEvent (id t : string) (k : EventKind) (a : Actor) (tg : Target)
                       (c : option Correlation) : NormalizedEvent :=
  mkEvent id t sampleSource k a tg "act" SUCCESS c None None.

(** A correlation bag whose [deployment_id] is the empty string. *)
Definition emptyDeploymentEvent : NormalizedEvent :=
  sampleEvent "e0" "2024-01-15T10:00:00Z" CUSTOM alice appService
              (bag None None None None (Some EmptyString)).

Definition fullBagEvent : NormalizedEvent :=
  sampleEvent "e1" "2024-01-15T10:00:00Z" PR_MERGED alice appService
              (bag (Some "t1") (Some "abc123") (Some "42") (Some "JIRA-1")
                   (Some "789")).

(** Scenario D: an access grant and a deployment sharing a deployment id. *)
Definition grantEvent : NormalizedEvent :=
  sampleEvent "g1" "2024-01-15T09:00:00Z" ACCESS_GRANT alice appService
              (bag None None None None (Some "d1")).

Definition deployEvent : NormalizedEvent :=
  sampleEvent "d1" "2024-01-15T09:30:00Z" DEPLOYMENT ci appService
              (bag None None None None (Some "d1")).

(** Two events on the same target, exactly five minutes apart, and a third
    one second before the five minutes are over; none has a correlation bag. *)
Definition tick0 : NormalizedEvent :=
  sampleEvent "k0" "2024-01-15T10:00:00Z" CUSTOM alice appService None.

Definition tick299 : NormalizedEvent :=
  sampleEvent "k299" "2024-01-15T10:04:59Z" CUSTOM bob appService None.

Definition tick300 : NormalizedEvent :=
  sampleEvent "k300" "2024-01-15T10:05:00Z" CUSTOM bob appService None.

(** Events without a correlation bag. *)
Definition bareMerge : NormalizedEvent :=
  sampleEvent "m1" "2024-01-15T10:00:00Z" PR_MERGED alice appService None.

Definition bareOpen : NormalizedEvent :=
  sampleEvent "o1" "2024-01-15T09:00:00Z" PR_OPENED alice appService None.

Definition bareDeploy : NormalizedEvent :=
  sampleEvent "dp1" "2024-01-15T11:00:00Z" DEPLOYMENT ci db None.

Definition bareTrace : NormalizedEvent :=
  sampleEvent "tr1" "2024-01-15T12:00:00Z" TRACE ci db None.

(** Scenario A: a merged pull request and the deployment of its commit. *)
Definition prMerged : NormalizedEvent :=
  sampleEvent "event-1" "2024-01-15T10:00:00Z" PR_MERGED alice appService
              (bag None (Some "abc123") None None None).

Definition deployment : NormalizedEvent :=
  sampleEvent "event-2" "2024-01-15T10:05:00Z" DEPLOYMENT ci appService
              (bag None (Some "abc123") None None None).

(** Scenario C: two events of trace X and one of trace Y. *)
Definition traceA : NormalizedEvent :=
  sampleEvent "A" "2024-01-15T10:00:00Z" TRACE alice appService
              (bag (Some "X") None None None None).

Definition traceB : NormalizedEvent :=
  sampleEvent "B" "2024-01-15T10:01:00Z" TRACE bob appService
              (bag (Some "X") None None None None).

Definition traceC : NormalizedEvent :=
  sampleEvent "C" "2024-01-15T10:02:00Z" TRACE bob db
              (bag (Some "Y") None None None None).



(** The input contract on time stamps: the collation orders the times of
    the events [evs] as the order of the code units does, which is the case
    for time stamps of one fixed format. *)
Definition lexicalTimes (localeCompare : string -> string -> Z)
                        (evs : list NormalizedEvent) : Prop :=
  forall a b, In a evs -> In b evs ->
    (localeCompare (time a) (time b) <= 0
     <-> String.leb (time a) (time b) = true).

(** How often the key [k] occurs among the keys of [evs]. *)
Definition occurrences {E : Type} (key : E -> string) (evs : list E)
                       (k : string) : nat :=
  count_occ string_dec (map key evs) k.

(** [result] is the value of the most frequent key of [evs], the key met
    first winning a tie: [result] comes from an event [e] that is the first
    one with its key, no key occurs more often than that of [e], and every
    key met before [e] occurs less often. *)
Definition mostFrequentFirst {E V : Type} (key : E -> string) (val : E -> V)
                             (evs : list E) (result : option V) : Prop :=
  exists pre e post,
    evs = pre ++ e :: post
    /\ result = Some (val e)
    /\ (forall e', In e' pre -> key e' <> key e)
    /\ (forall e', In e' evs ->
          (occurrences key evs (key e') <= occurrences key evs (key e))%nat)
    /\ (forall e', In e' pre ->
          (occurrences key evs (key e') < occurrences key evs (key e))%nat).

(** Three events of actor bob on the database after one of alice, and a tie
    between alice and bob in which alice comes first. *)
Definition bobMostly : list NormalizedEvent :=
  [ sampleEvent "p1" "2024-01-15T10:00:00Z" CUSTOM alice appService None;
    sampleEvent "p2" "2024-01-15T10:01:00Z" CUSTOM bob db None;
    sampleEvent "p3" "2024-01-15T10:02:00Z" CUSTOM bob db None ].

Definition aliceBobTie : list NormalizedEvent :=
  [ sampleEvent "q1" "2024-01-15T10:00:00Z" CUSTOM alice db None;
    sampleEvent "q2" "2024-01-15T10:01:00Z" CUSTOM bob appService None;
    sampleEvent "q3" "2024-01-15T10:02:00Z" CUSTOM bob db None;
    sampleEvent "q4" "2024-01-15T10:03:00Z" CUSTOM alice appService None ].

(** The run in which the storage takes one episode and refuses the next. *)
Definition refusedRun : Completion (list Episode) * World (list Episode) :=
  correlate lexCompare demoId isoTime (list Episode) (boundedSave 1)
            [traceA; traceC] (mkWorld 0 []).

(** A chain of three seed groups: a trace, a commit and a deployment, the
    trace tied to the commit by [chainD] and the commit to the deployment by
    [chainK]. *)
Definition chainA : NormalizedEvent :=
  sampleEvent "ca" "2024-01-15T10:00:00Z" TRACE alice appService
              (bag (Some "X") None None None None).

Definition chainB : NormalizedEvent :=
  sampleEvent "cb" "2024-01-15T10:01:00Z" PR_MERGED alice appService
              (bag None (Some "c1") None None None).

Definition chainF : NormalizedEvent :=
  sampleEvent "cf" "2024-01-15T10:02:00Z" DEPLOYMENT ci appService
              (bag None None None None (Some "D")).

Definition chainD : NormalizedEvent :=
  sampleEvent "cd" "2024-01-15T10:03:00Z" TRACE ci appService
              (bag (Some "X") (Some "c1") None None None).

Definition chainK : NormalizedEvent :=
  sampleEvent "ck" "2024-01-15T10:04:00Z" DEPLOYMENT ci appService
              (bag None (Some "c1") None None (Some "D")).

Definition chainBatch : list NormalizedEvent :=
  [chainA; chainB; chainF; chainD; chainK].

(** A feature-flag change and a trace with nothing in common. *)
Definition flagEvent : NormalizedEvent :=
  sampleEvent "ff" "2024-01-15T10:00:00Z" FEATURE_FLAG alice db None.

(** Two episodes that agree on everything but their identifier. *)
Definition sameExceptId (p q : Episode) : Prop :=
  episode_type p = episode_type q
  /\ start_time p = start_time q
  /\ end_time p = end_time q
  /\ primary_actor p = primary_actor q
  /\ primary_target p = primary_target q
  /\ events p = events q
  /\ graph p = graph q.

(** A second identifier generator: [run0], [run1], ... *)
Definition otherId (n : nat) : string :=
  ("run" ++ String (ascii_of_nat (48 + n)) EmptyString)%string.

(* ================================================================== *)
(** ** Properties                                                      *)
(* ================================================================== *)

(** *** Key extractor *)

Lemma getCorrelationKeys_slots (event : NormalizedEvent) :
  getCorrelationKeys event = keysOmittingEmpty event.
Proof.
  unfold getCorrelationKeys, keysOmittingEmpty, keySlots; cbn [flat_map fst snd].
  destruct (corr deployment_id event) as [d|], (corr pr_number event) as [p|],
           (corr commit_sha event) as [c|], (corr trace_id event) as [t|],
           (corr ticket_id event) as [k|];
    cbn [truthy template];
    repeat match goal with
           | |- context [String.eqb ?s EmptyString] =>
               destruct (String.eqb s EmptyString)
           end;
    cbn [negb app]; rewrite ?app_nil_r; reflexivity.
Qed.

(** C8, as stated, fails: an event whose [deployment_id] is present and
    empty gets no [deployment:] key, where omitting only absent fields
    would give one. *)
Lemma C8_empty_field_counterexample :
  corr deployment_id emptyDeploymentEvent = Some EmptyString
  /\ getCorrelationKeys emptyDeploymentEvent = []
  /\ keysOmittingAbsent emptyDeploymentEvent = ["deployment:"%string]
  /\ ~ (forall event, getCorrelationKeys event = keysOmittingAbsent event).
Proof.
  repeat split; try reflexivity.
  intro H. specialize (H emptyDeploymentEvent). discriminate H.
Qed.

(** C8, amended: the key extractor returns the keys in the fixed order
    deployment, pr (with the source instance), commit, trace, ticket, leaving
    out every field that is absent or the empty string; the list depends
    only on the correlation bag and the source instance, so equal inputs give
    equal lists. *)
Theorem C8_key_order :
  (forall event, getCorrelationKeys event = keysOmittingEmpty event)
  /\ (forall event,
        (forall f, In f [deployment_id; pr_number; commit_sha; trace_id; ticket_id] ->
                   corr f event <> Some EmptyString) ->
        getCorrelationKeys event = keysOmittingAbsent event)
  /\ (forall e1 e2,
        correlation e1 = correlation e2 ->
        source_instance (source e1) = source_instance (source e2) ->
        getCorrelationKeys e1 = getCorrelationKeys e2).
Proof.
  split; [exact getCorrelationKeys_slots|split].
  - intros event Hne. rewrite getCorrelationKeys_slots.
    unfold keysOmittingEmpty, keysOmittingAbsent, keySlots; cbn [flat_map fst snd].
    assert (Hd := Hne deployment_id). assert (Hp := Hne pr_number).
    assert (Hc := Hne commit_sha). assert (Ht := Hne trace_id).
    assert (Hk := Hne ticket_id). clear Hne. cbn [In] in *.
    destruct (corr deployment_id event) as [d|] eqn:Ed,
             (corr pr_number event) as [p|] eqn:Ep,
             (corr commit_sha event) as [c|] eqn:Ec,
             (corr trace_id event) as [t|] eqn:Et,
             (corr ticket_id event) as [k|] eqn:Ek;
      repeat match goal with
             | |- context [String.eqb ?s EmptyString] =>
                 let Q := fresh in
                 destruct (String.eqb_spec s EmptyString) as [Q|Q];
                 [subst s; exfalso; intuition congruence|]
             end; reflexivity.
  - intros e1 e2 Hc Hs. unfold getCorrelationKeys, corr.
    rewrite Hc, Hs. reflexivity.
Qed.

Lemma C8_key_order_witness :
  getCorrelationKeys fullBagEvent
  = [ "deployment:789"; "pr:undefined:42"; "commit:abc123"; "trace:t1";
      "ticket:JIRA-1" ]%string.
Proof.
  rewrite (proj1 (proj2 C8_key_order) fullBagEvent).
  - reflexivity.
  - intros f Hf. cbn in Hf.
    repeat (destruct Hf as [<-|Hf]; [discriminate|]). contradiction.
Defined.

(** *** Episode type classifier *)

Lemma EventKind_eqb_eq (a b : EventKind) : EventKind_eqb a b = true <-> a = b.
Proof. destruct a, b; cbn; split; intro H; congruence. Qed.

Lemma kinds_has_spec (evs : list NormalizedEvent) (k : EventKind) :
  kinds_has (map kind evs) k = true <-> exists e, In e evs /\ kind e = k.
Proof.
  unfold kinds_has. rewrite existsb_exists. split.
  - intros (k' & Hin & Heq). apply in_map_iff in Hin as (e & <- & He).
    apply EventKind_eqb_eq in Heq. eauto.
  - intros (e & He & <-). exists (kind e). split.
    + now apply in_map.
    + now apply EventKind_eqb_eq.
Qed.

Lemma kinds_has_false (evs : list NormalizedEvent) (k : EventKind) :
  kinds_has (map kind evs) k = false <-> ~ exists e, In e evs /\ kind e = k.
Proof.
  rewrite <- kinds_has_spec. destruct (kinds_has (map kind evs) k); intuition congruence.
Qed.

(** C7: the episode type is the first match, over the kinds present in the
    group, of DEPLOYMENT, FEATURE_FLAG, ACCESS_GRANT or ACCESS_REVOKE,
    INCIDENT, PR_MERGED, and CustomEpisode when none is present; a group of
    one ACCESS_GRANT and one DEPLOYMENT event is a DeploymentEpisode. *)
Theorem C7_type_priority (evs : list NormalizedEvent) :
  let has k := exists e, In e evs /\ kind e = k in
  (has DEPLOYMENT -> determineEpisodeType evs = DeploymentEpisode)
  /\ (~ has DEPLOYMENT -> has FEATURE_FLAG ->
      determineEpisodeType evs = FlagEpisode)
  /\ (~ has DEPLOYMENT -> ~ has FEATURE_FLAG ->
      has ACCESS_GRANT \/ has ACCESS_REVOKE ->
      determineEpisodeType evs = AccessEpisode)
  /\ (~ has DEPLOYMENT -> ~ has FEATURE_FLAG ->
      ~ has ACCESS_GRANT -> ~ has ACCESS_REVOKE -> has INCIDENT ->
      determineEpisodeType evs = IncidentEpisode)
  /\ (~ has DEPLOYMENT -> ~ has FEATURE_FLAG ->
      ~ has ACCESS_GRANT -> ~ has ACCESS_REVOKE -> ~ has INCIDENT ->
      has PR_MERGED ->
      determineEpisodeType evs = PRMergeEpisode)
  /\ (~ has DEPLOYMENT -> ~ has FEATURE_FLAG ->
      ~ has ACCESS_GRANT -> ~ has ACCESS_REVOKE -> ~ has INCIDENT ->
      ~ has PR_MERGED ->
      determineEpisodeType evs = CustomEpisode)
  /\ (forall a d, kind a = ACCESS_GRANT -> kind d = DEPLOYMENT ->
      determineEpisodeType [a; d] = DeploymentEpisode
      /\ determineEpisodeType [d; a] = DeploymentEpisode).
Proof.
  intro has. subst has. cbv beta.
  unfold determineEpisodeType. cbv zeta.
  repeat split.
  - intros H. apply kinds_has_spec in H. now rewrite H.
  - intros H1 H2. apply kinds_has_false in H1. apply kinds_has_spec in H2.
    now rewrite H1, H2.
  - intros H1 H2 H3. apply kinds_has_false in H1, H2. rewrite H1, H2.
    destruct H3 as [H3|H3]; apply kinds_has_spec in H3; rewrite H3;
      [reflexivity|now rewrite orb_true_r].
  - intros H1 H2 H3 H4 H5. apply kinds_has_false in H1, H2, H3, H4.
    apply kinds_has_spec in H5. now rewrite H1, H2, H3, H4, H5.
  - intros H1 H2 H3 H4 H5 H6. apply kinds_has_false in H1, H2, H3, H4, H5.
    apply kinds_has_spec in H6. now rewrite H1, H2, H3, H4, H5, H6.
  - intros H1 H2 H3 H4 H5 H6. apply kinds_has_false in H1, H2, H3, H4, H5, H6.
    now rewrite H1, H2, H3, H4, H5, H6.
  - cbn. rewrite H, H0. reflexivity.
  - cbn. rewrite H0. reflexivity.
Qed.

Lemma C7_type_priority_witness :
  determineEpisodeType [grantEvent; deployEvent] = DeploymentEpisode.
Proof.
  apply (proj1 (C7_type_priority [grantEvent; deployEvent])).
  exists deployEvent. split; [right; left; reflexivity|reflexivity].
Defined.

(** *** Relationship inference *)

Section Relationships.

Variable Date_getTime : string -> option Z.

Lemma strict_eq_true (a b : option string) : strict_eq a b = true <-> a = b.
Proof.
  destruct a as [x|], b as [y|]; cbn; try (split; congruence).
  rewrite String.eqb_eq. split; congruence.
Qed.

Lemma truthy_true (o : option string) :
  truthy o = true <-> exists s, o = Some s /\ s <> EmptyString.
Proof.
  destruct o as [s|]; cbn.
  - destruct (String.eqb_spec s EmptyString); cbn; split.
    + discriminate.
    + intros (s' & [= <-] & Hne). contradiction.
    + eauto.
    + reflexivity.
  - split; [discriminate|intros (s & H & _); discriminate].
Qed.

Lemma PR_prefixed (k : EventKind) :
  startsWith (kind_name k) "PR_" = true
  <-> k = PR_MERGED \/ k = PR_OPENED \/ k = PR_APPROVED.
Proof.
  destruct k; cbn; split; intro H; try discriminate; auto;
    destruct H as [H|[H|H]]; discriminate.
Qed.

(** C10: rules 1, 2 and 4 compare the correlation field with [===], so a
    field absent on both events counts as the same value: PR_MERGED then
    DEPLOYMENT without commit_sha gives CAUSES, DEPLOYMENT then TRACE without
    deployment_id gives TRIGGERS, two PR_ events without pr_number give
    FOLLOWS; rules 5 and 6 fire only on a field that is present and not
    empty. *)
Theorem C10_absent_fields_are_same (earlier later : NormalizedEvent) :
  (kind earlier = PR_MERGED -> kind later = DEPLOYMENT ->
   corr commit_sha earlier = None -> corr commit_sha later = None ->
   inferRelationship Date_getTime earlier later = Some CAUSES)
  /\ (kind earlier = DEPLOYMENT -> kind later = TRACE ->
      corr deployment_id earlier = None -> corr deployment_id later = None ->
      inferRelationship Date_getTime earlier later = Some TRIGGERS)
  /\ (startsWith (kind_name (kind earlier)) "PR_" = true ->
      startsWith (kind_name (kind later)) "PR_" = true ->
      corr pr_number earlier = None -> corr pr_number later = None ->
      inferRelationship Date_getTime earlier later = Some FOLLOWS)
  /\ (rule5 earlier later = true <->
      exists s, s <> EmptyString
                /\ corr trace_id earlier = Some s /\ corr trace_id later = Some s)
  /\ (rule6 earlier later = true <->
      exists s, s <> EmptyString
                /\ corr deployment_id earlier = Some s
                /\ corr deployment_id later = Some s).
Proof.
  repeat split.
  - intros K1 K2 C1 C2. unfold inferRelationship, rule1.
    rewrite K1, K2, C1, C2. reflexivity.
  - intros K1 K2 C1 C2. unfold inferRelationship, rule1, rule2.
    rewrite K1, K2, C1, C2. reflexivity.
  - intros K1 K2 C1 C2. unfold inferRelationship, rule1, rule2, rule3, rule4.
    rewrite K1, K2, C1, C2.
    apply PR_prefixed in K1, K2.
    destruct K1 as [ -> | [ -> | -> ] ], K2 as [ -> | [ -> | -> ] ]; reflexivity.
  - unfold rule5. intro H. apply andb_true_iff in H as [T E].
    apply truthy_true in T as (s & Hs & Hne). apply strict_eq_true in E.
    exists s. rewrite <- E. auto.
  - intros (s & Hne & E1 & E2). unfold rule5. rewrite E1, E2. cbn.
    rewrite String.eqb_refl, andb_true_r.
    destruct (String.eqb_spec s EmptyString); [contradiction|reflexivity].
  - unfold rule6. intro H. apply andb_true_iff in H as [T E].
    apply truthy_true in T as (s & Hs & Hne). apply strict_eq_true in E.
    exists s. rewrite <- E. auto.
  - intros (s & Hne & E1 & E2). unfold rule6. rewrite E1, E2. cbn.
    rewrite String.eqb_refl, andb_true_r.
    destruct (String.eqb_spec s EmptyString); [contradiction|reflexivity].
Qed.

(** C6: when rules 1 to 6 do not match and the two events have the same
    target id, the pair gets a FOLLOWS edge exactly when the difference of
    the two times is strictly below 5 * 60 * 1000 ms; at exactly that
    difference there is no edge. *)
Theorem C6_five_minute_boundary (earlier later : NormalizedEvent) :
  rule1 earlier later = false -> rule2 earlier later = false ->
  rule3 earlier later = false -> rule4 earlier later = false ->
  rule5 earlier later = false -> rule6 earlier later = false ->
  target_id (target earlier) = target_id (target later) ->
  (inferRelationship Date_getTime earlier later = Some FOLLOWS
   <-> exists ms, timeDiff Date_getTime earlier later = Some ms
                  /\ ms < 5 * 60 * 1000)
  /\ (edges (buildCausalGraph Date_getTime [earlier; later])
      = [mkEdge (event_id earlier) (event_id later) FOLLOWS]
      <-> exists ms, timeDiff Date_getTime earlier later = Some ms
                     /\ ms < 5 * 60 * 1000)
  /\ (timeDiff Date_getTime earlier later = Some (5 * 60 * 1000) ->
      inferRelationship Date_getTime earlier later = None
      /\ edges (buildCausalGraph Date_getTime [earlier; later]) = []).
Proof.
  intros R1 R2 R3 R4 R5 R6 HT.
  assert (I : inferRelationship Date_getTime earlier later
              = if withinFiveMinutes (timeDiff Date_getTime earlier later)
                then Some FOLLOWS else None).
  { unfold inferRelationship, rule7. rewrite R1, R2, R3, R4, R5, R6, HT.
    rewrite String.eqb_refl, andb_true_r. reflexivity. }
  assert (W : withinFiveMinutes (timeDiff Date_getTime earlier later) = true
              <-> exists ms, timeDiff Date_getTime earlier later = Some ms
                             /\ ms < 5 * 60 * 1000).
  { destruct (timeDiff Date_getTime earlier later) as [d|]; cbn.
    - rewrite Z.ltb_lt. split.
      + intro. exists d. split; [reflexivity|lia].
      + intros (ms & [= <-] & H). lia.
    - split; [discriminate|intros (ms & H & _); discriminate]. }
  cbn [buildCausalGraph edges allEdges edgesFrom]. rewrite I, <- W.
  destruct (withinFiveMinutes (timeDiff Date_getTime earlier later)) eqn:E;
    cbn [app].
  - split; [tauto|split; [tauto|]].
    intro D. rewrite D in E. discriminate E.
  - split; [split; discriminate|split; [split; discriminate|]].
    intros _. split; reflexivity.
Qed.

End Relationships.

Lemma C10_absent_fields_are_same_witness :
  inferRelationship isoTime bareMerge bareDeploy = Some CAUSES
  /\ inferRelationship isoTime bareDeploy bareTrace = Some TRIGGERS
  /\ inferRelationship isoTime bareOpen bareMerge = Some FOLLOWS.
Proof.
  pose proof (C10_absent_fields_are_same isoTime bareMerge bareDeploy) as (H1 & _).
  pose proof (C10_absent_fields_are_same isoTime bareDeploy bareTrace) as (_ & H2 & _).
  pose proof (C10_absent_fields_are_same isoTime bareOpen bareMerge) as (_ & _ & H3 & _).
  split; [|split].
  - apply H1; reflexivity.
  - apply H2; reflexivity.
  - apply H3; reflexivity.
Defined.

Lemma C6_five_minute_boundary_witness :
  timeDiff isoTime tick0 tick300 = Some 300000
  /\ inferRelationship isoTime tick0 tick300 = None
  /\ edges (buildCausalGraph isoTime [tick0; tick300]) = []
  /\ timeDiff isoTime tick0 tick299 = Some 299000
  /\ inferRelationship isoTime tick0 tick299 = Some FOLLOWS.
Proof.
  pose proof (C6_five_minute_boundary isoTime tick0 tick300
                eq_refl eq_refl eq_refl eq_refl eq_refl eq_refl eq_refl)
    as (_ & _ & H300).
  pose proof (C6_five_minute_boundary isoTime tick0 tick299
                eq_refl eq_refl eq_refl eq_refl eq_refl eq_refl eq_refl)
    as (H299 & _).
  assert (D300 : timeDiff isoTime tick0 tick300 = Some (5 * 60 * 1000))
    by (vm_compute; reflexivity).
  assert (D299 : timeDiff isoTime tick0 tick299 = Some 299000)
    by (vm_compute; reflexivity).
  destruct (H300 D300) as [N E].
  split; [exact D300|]. split; [exact N|]. split; [exact E|].
  split; [exact D299|].
  apply H299. exists 299000. split; [exact D299|lia].
Defined.

(** *** Sorting *)

Section SortFacts.

Context {A : Type} (cmp : A -> A -> Z).

Lemma sort_insert_perm (x : A) (l : list A) :
  Permutation (sort_insert cmp x l) (x :: l).
Proof.
  induction l as [|y r IH]; cbn.
  - reflexivity.
  - destruct (cmp x y <=? 0).
    + reflexivity.
    + rewrite IH. apply perm_swap.
Qed.

Lemma Array_sort_perm (l : list A) : Permutation (Array_sort cmp l) l.
Proof.
  induction l as [|x r IH]; cbn.
  - constructor.
  - fold (Array_sort cmp r). rewrite sort_insert_perm. now constructor.
Qed.

Lemma Array_sort_nil_iff (l : list A) : Array_sort cmp l = [] <-> l = [].
Proof.
  split; intro H.
  - apply Permutation_nil. rewrite <- H. apply Array_sort_perm.
  - subst. reflexivity.
Qed.

Hypothesis cmp_total : forall x y, cmp x y <= 0 \/ cmp y x <= 0.
Hypothesis cmp_trans : forall x y z, cmp x y <= 0 -> cmp y z <= 0 -> cmp x z <= 0.

Let le (x y : A) : Prop := cmp x y <= 0.

Lemma sort_insert_sorted (x : A) (l : list A) :
  StronglySorted le l -> StronglySorted le (sort_insert cmp x l).
Proof.
  induction 1 as [|y r Hr IH Hy]; cbn.
  - repeat constructor.
  - destruct (Z.leb_spec (cmp x y) 0) as [Hxy|Hxy].
    + constructor; [now constructor|].
      constructor; [exact Hxy|].
      rewrite Forall_forall in *. intros z Hz. eapply cmp_trans; eauto.
      now apply Hy.
    + constructor; [exact IH|].
      rewrite Forall_forall in *. intros z Hz.
      apply (Permutation_in _ (sort_insert_perm x r)) in Hz.
      destruct Hz as [<-|Hz]; [|now apply Hy].
      destruct (cmp_total y x); [assumption|lia].
Qed.

Lemma Array_sort_sorted (l : list A) : StronglySorted le (Array_sort cmp l).
Proof.
  induction l as [|x r IH]; cbn.
  - constructor.
  - now apply sort_insert_sorted.
Qed.

End SortFacts.

Lemma StronglySorted_head {A : Type} (R : A -> A -> Prop) (x : A) (l : list A) :
  StronglySorted R (x :: l) -> forall y, In y l -> R x y.
Proof.
  intros H y Hy. apply StronglySorted_inv in H as [_ H].
  rewrite Forall_forall in H. now apply H.
Qed.

Lemma StronglySorted_last {A : Type} (R : A -> A -> Prop) (l : list A) (d : A) :
  (forall x, R x x) -> StronglySorted R l ->
  forall y, In y l -> R y (last l d).
Proof.
  intros Hrefl. induction 1 as [|x r Hr IH Hx]; intros y Hy.
  - contradiction.
  - destruct r as [|z r'].
    + destruct Hy as [<-|[]]. apply Hrefl.
    + change (last (x :: z :: r') d) with (last (z :: r') d).
      destruct Hy as [<-|Hy]; [|now apply IH].
      rewrite Forall_forall in Hx. apply Hx.
      clear. generalize z. induction r' as [|u r IH]; intro z0.
      * now left.
      * right. apply IH.
Qed.

Lemma last_In {A : Type} (l : list A) (d : A) : l <> [] -> In (last l d) l.
Proof.
  induction l as [|x r IH]; [congruence|intros _].
  destruct r as [|y r']; [now left|].
  right. apply IH. discriminate.
Qed.

(** *** Time order *)

Lemma lexCompare_leb (a b : string) :
  lexCompare a b <= 0 <-> String.leb a b = true.
Proof.
  unfold lexCompare, String.leb.
  destruct (String.compare a b); split; intro H; try lia; try reflexivity;
    discriminate.
Qed.

Lemma leb_refl (a : string) : String.leb a a = true.
Proof.
  unfold String.leb.
  assert (H : String.compare a a = Eq) by now apply String_as_OT.cmp_eq.
  now rewrite H.
Qed.

Lemma lexCompare_total (a b : string) :
  lexCompare a b <= 0 \/ lexCompare b a <= 0.
Proof.
  rewrite !lexCompare_leb. apply String.leb_total.
Qed.

Lemma lexCompare_trans (a b c : string) :
  lexCompare a b <= 0 -> lexCompare b c <= 0 -> lexCompare a c <= 0.
Proof.
  unfold lexCompare.
  destruct (String.compare a b) eqn:Eab; try lia;
    destruct (String.compare b c) eqn:Ebc; try lia; intros _ _.
  - apply String.compare_eq_iff in Eab, Ebc. subst.
    assert (H : String.compare c c = Eq) by now apply String_as_OT.cmp_eq.
    rewrite H. lia.
  - apply String.compare_eq_iff in Eab. subst. rewrite Ebc. lia.
  - apply String.compare_eq_iff in Ebc. subst. rewrite Eab. lia.
  - assert (H : String.compare a c = Lt).
    { apply String_as_OT.cmp_lt.
      eapply String_as_OT.lt_trans; apply String_as_OT.cmp_lt; eassumption. }
    rewrite H. lia.
Qed.

(** The sort looks at the comparator on the elements of the list only. *)
Lemma sort_insert_ext {T : Type} (cmp1 cmp2 : T -> T -> Z) (x : T) (l : list T) :
  (forall y, In y l -> (cmp1 x y <=? 0) = (cmp2 x y <=? 0)) ->
  sort_insert cmp1 x l = sort_insert cmp2 x l.
Proof.
  induction l as [|y r IH]; intro H; cbn; [reflexivity|].
  rewrite (H y (or_introl eq_refl)).
  destruct (cmp2 x y <=? 0); [reflexivity|].
  f_equal. apply IH. intros z Hz. apply H. now right.
Qed.

Lemma Array_sort_ext_in {T : Type} (cmp1 cmp2 : T -> T -> Z) (l : list T) :
  (forall x y, In x l -> In y l -> (cmp1 x y <=? 0) = (cmp2 x y <=? 0)) ->
  Array_sort cmp1 l = Array_sort cmp2 l.
Proof.
  induction l as [|x r IH]; intro H; cbn; [reflexivity|].
  fold (Array_sort cmp1 r). fold (Array_sort cmp2 r).
  rewrite IH by (intros a b Ha Hb; apply H; now right).
  apply sort_insert_ext. intros y Hy. apply H; [now left|].
  right. exact (Permutation_in _ (Array_sort_perm cmp2 r) Hy).
Qed.

Lemma byTime_lex_sorted (evs : list NormalizedEvent) :
  StronglySorted (fun a b => String.leb (time a) (time b) = true)
                 (Array_sort (byTime lexCompare) evs).
Proof.
  assert (S : StronglySorted (fun a b => byTime lexCompare a b <= 0)
                             (Array_sort (byTime lexCompare) evs)).
  { apply (Array_sort_sorted (byTime lexCompare)).
    - intros x y. apply lexCompare_total.
    - intros x y z. apply lexCompare_trans. }
  induction S as [|x r Hr IH Hx]; constructor.
  - exact IH.
  - eapply Forall_impl; [|exact Hx].
    intros b H. apply lexCompare_leb. exact H.
Qed.

(** Under the input contract the engine sorts as the code-unit order does. *)
Lemma Array_sort_lexical (localeCompare : string -> string -> Z)
                         (evs : list NormalizedEvent) :
  lexicalTimes localeCompare evs ->
  Array_sort (byTime localeCompare) evs = Array_sort (byTime lexCompare) evs.
Proof.
  intro H. apply Array_sort_ext_in. intros x y Hx Hy.
  apply eq_true_iff_eq. unfold byTime.
  rewrite !Z.leb_le, lexCompare_leb. now apply H.
Qed.

Lemma byTime_sorted (localeCompare : string -> string -> Z)
                    (evs : list NormalizedEvent) :
  lexicalTimes localeCompare evs ->
  StronglySorted (fun a b => String.leb (time a) (time b) = true)
                 (Array_sort (byTime localeCompare) evs).
Proof.
  intro H. rewrite (Array_sort_lexical _ _ H). apply byTime_lex_sorted.
Qed.

(** *** Episode assembly: time bounds *)

Section Assembly.

Variable localeCompare : string -> string -> Z.
Variable ulid : nat -> string.
Variable Date_getTime : string -> option Z.
Variable Store : Type.

Lemma createEpisode_nonempty (evs : list NormalizedEvent) (type : EpisodeType)
                             (w : World Store) :
  evs <> [] ->
  exists first rest,
    Array_sort (byTime localeCompare) evs = first :: rest
    /\ createEpisode localeCompare ulid Date_getTime Store evs type w
       = (Normal
            (mkEpisode (ulid (next_id w)) type (time first)
               (time (last (first :: rest) first))
               (mostCommon (actorCounts evs)) (mostCommon (targetCounts evs))
               (map event_id (first :: rest))
               (buildCausalGraph Date_getTime (first :: rest))),
          mkWorld (S (next_id w)) (store w)).
Proof.
  intro Hne. unfold createEpisode, bind, generateId.
  destruct (Array_sort (byTime localeCompare) evs) as [|first rest] eqn:E.
  - apply Array_sort_nil_iff in E. contradiction.
  - exists first, rest. split; reflexivity.
Qed.

(** C4: for a non-empty group whose time stamps the collation orders as
    the string order does (the input contract on time stamps), the episode
    is assembled, its event list is the group's ids in ascending order of
    time, [start_time] and [end_time] are times of members, and every
    member's time lies between them (string order). *)
Theorem C4_time_bounds (evs : list NormalizedEvent) (type : EpisodeType)
                       (w : World Store) :
  evs <> [] ->
  lexicalTimes localeCompare evs ->
  exists ep sorted,
    createEpisode localeCompare ulid Date_getTime Store evs type w
    = (Normal ep, mkWorld (S (next_id w)) (store w))
    /\ Permutation sorted evs
    /\ StronglySorted (fun a b => String.leb (time a) (time b) = true) sorted
    /\ events ep = map event_id sorted
    /\ (exists e, In e evs /\ start_time ep = time e)
    /\ (exists e, In e evs /\ end_time ep = time e)
    /\ (forall e, In e evs ->
          String.leb (start_time ep) (time e) = true
          /\ String.leb (time e) (end_time ep) = true).
Proof.
  intros Hne Hlex.
  destruct (createEpisode_nonempty evs type w Hne) as (first & rest & E & C).
  pose proof (Array_sort_perm (byTime localeCompare) evs) as P.
  pose proof (byTime_sorted localeCompare evs Hlex) as S.
  rewrite E in P, S.
  eexists. exists (first :: rest). split; [exact C|].
  cbn [events start_time end_time].
  split; [exact P|]. split; [exact S|]. split; [reflexivity|].
  split; [|split].
  - exists first. split; [|reflexivity].
    apply (Permutation_in _ P). now left.
  - exists (last (first :: rest) first). split; [|reflexivity].
    apply (Permutation_in _ P). apply last_In. discriminate.
  - intros e He. apply (Permutation_in _ (Permutation_sym P)) in He. split.
    + destruct He as [<-|He].
      * apply leb_refl.
      * exact (StronglySorted_head _ _ _ S e He).
    + apply (StronglySorted_last
               (fun a b => String.leb (time a) (time b) = true)); auto.
      intro x. apply leb_refl.
Qed.

End Assembly.

Lemma lexicalTimes_lexCompare (evs : list NormalizedEvent) :
  lexicalTimes lexCompare evs.
Proof. intros a b _ _. apply lexCompare_leb. Qed.

Lemma C4_time_bounds_witness :
  exists ep sorted,
    createEpisode lexCompare demoId isoTime unit [deployment; prMerged]
                  DeploymentEpisode (mkWorld 0 tt)
    = (Normal ep, mkWorld 1 tt)
    /\ Permutation sorted [deployment; prMerged]
    /\ StronglySorted (fun a b => String.leb (time a) (time b) = true) sorted
    /\ events ep = map event_id sorted
    /\ (exists e, In e [deployment; prMerged] /\ start_time ep = time e)
    /\ (exists e, In e [deployment; prMerged] /\ end_time ep = time e)
    /\ (forall e, In e [deployment; prMerged] ->
          String.leb (start_time ep) (time e) = true
          /\ String.leb (time e) (end_time ep) = true).
Proof.
  apply (C4_time_bounds lexCompare demoId isoTime unit [deployment; prMerged]
           DeploymentEpisode (mkWorld 0 tt)).
  - discriminate.
  - apply lexicalTimes_lexCompare.
Defined.

(** *** Grouping: facts about the seed assignment and the merge pass *)

Lemma getCorrelationKeys_truthy (event : NormalizedEvent) (k : string) :
  In k (getCorrelationKeys event) -> truthy (Some k) = true.
Proof.
  unfold getCorrelationKeys. rewrite !in_app_iff.
  intros H. repeat destruct H as [H|H];
    match type of H with
    | In _ (if ?c then _ else _) => destruct c; [|contradiction]
    end;
    destruct H as [<-|[]]; reflexivity.
Qed.

Lemma includes_In (keys : list string) (k : string) :
  includes keys k = true <-> In k keys.
Proof.
  unfold includes. rewrite existsb_exists. split.
  - intros (x & Hx & E). apply String.eqb_eq in E. now subst.
  - intro H. exists k. split; [exact H|apply String.eqb_refl].
Qed.

Lemma Set_has_In (s : list string) (k : string) : Set_has s k = true <-> In k s.
Proof. apply includes_In. Qed.

(** Whether some event of the group carries the key. *)
Lemma carries_spec (key : string) (evs : list NormalizedEvent) :
  existsb (fun ev => includes (getCorrelationKeys ev) key) evs = true
  <-> exists ev, In ev evs /\ In key (getCorrelationKeys ev).
Proof.
  rewrite existsb_exists. split; intros (ev & H1 & H2); exists ev;
    (split; [exact H1|now apply includes_In]).
Qed.

Lemma scanGroups_miss (key : string) (groups : Groups) :
  (forall g ev, In g groups -> In ev (snd g) ->
                ~ In key (getCorrelationKeys ev)) ->
  scanGroups key groups None = None.
Proof.
  induction groups as [|[gk evs] rest IH]; intro H; cbn; [reflexivity|].
  destruct (existsb _ evs) eqn:E.
  - apply carries_spec in E as (ev & Hev & Hk).
    exfalso. apply (H (gk, evs) ev); auto. now left.
  - cbn. apply IH. intros g ev Hg. apply H. now right.
Qed.

Lemma scanKeys_miss (keys : list string) (groups : Groups) :
  (forall key g ev, In key keys -> In g groups -> In ev (snd g) ->
                    ~ In key (getCorrelationKeys ev)) ->
  scanKeys keys groups None = None.
Proof.
  induction keys as [|key rest IH]; intro H; cbn; [reflexivity|].
  rewrite scanGroups_miss.
  - cbn. apply IH. intros k g ev Hk. apply H. now right.
  - intros g ev. apply H. now left.
Qed.

Lemma scanKeys_single_hit (keys : list string) (gk : string)
                          (evs : list NormalizedEvent) :
  truthy (Some gk) = true ->
  (exists key ev, In key keys /\ In ev evs /\ In key (getCorrelationKeys ev)) ->
  scanKeys keys [(gk, evs)] None = Some gk.
Proof.
  intros Hgk. induction keys as [|key rest IH]; intros (k & ev & Hk & Hev & Hin).
  - contradiction.
  - cbn [scanKeys scanGroups]. destruct (existsb _ evs) eqn:E.
    + rewrite !Hgk. reflexivity.
    + cbn [truthy]. apply IH. destruct Hk as [<-|Hk].
      * assert (X : existsb (fun ev => includes (getCorrelationKeys ev) key) evs
                    = true) by (apply carries_spec; eauto).
        congruence.
      * eauto.
Qed.

Lemma fallbackKey_head (event : NormalizedEvent) (k : string) (rest : list string) :
  getCorrelationKeys event = k :: rest ->
  fallbackKey (getCorrelationKeys event) event = k.
Proof.
  intro E. unfold fallbackKey. rewrite E.
  rewrite (getCorrelationKeys_truthy event k); [reflexivity|].
  rewrite E. now left.
Qed.

(** The first event of a batch that has a key founds the group of its first
    key. *)
Lemma groupStep_first (event : NormalizedEvent) (k : string) (rest : list string) :
  getCorrelationKeys event = k :: rest ->
  groupStep [] event = [(k, [event])].
Proof.
  intro E. unfold groupStep.
  rewrite scanKeys_miss by (intros ? ? ? _ []).
  rewrite (fallbackKey_head event k rest E). cbn.
  rewrite String.eqb_refl. reflexivity.
Qed.

(** An event that shares a key with the only group joins it. *)
Lemma groupStep_join (gk : string) (evs : list NormalizedEvent)
                     (event : NormalizedEvent) :
  truthy (Some gk) = true ->
  (exists key ev, In key (getCorrelationKeys event) /\ In ev evs
                  /\ In key (getCorrelationKeys ev)) ->
  groupStep [(gk, evs)] event = [(gk, evs ++ [event])].
Proof.
  intros Hgk Hshare. unfold groupStep.
  rewrite (scanKeys_single_hit _ gk evs Hgk Hshare).
  cbn [truthy] in *. rewrite Hgk. cbn. rewrite String.eqb_refl. cbn.
  rewrite String.eqb_refl. reflexivity.
Qed.

(** An event that shares no key with the only group founds a second one. *)
Lemma groupStep_apart (gk : string) (evs : list NormalizedEvent)
                      (event : NormalizedEvent) (k : string) (rest : list string) :
  getCorrelationKeys event = k :: rest ->
  gk <> k ->
  (forall key ev, In key (getCorrelationKeys event) -> In ev evs ->
                  ~ In key (getCorrelationKeys ev)) ->
  groupStep [(gk, evs)] event = [(gk, evs); (k, [event])].
Proof.
  intros E Hne Hapart. unfold groupStep.
  rewrite scanKeys_miss.
  - rewrite (fallbackKey_head event k rest E). cbn.
    apply String.eqb_neq in Hne. rewrite Hne. cbn. rewrite Hne.
    rewrite String.eqb_refl. reflexivity.
  - intros key g ev Hk [<-|[]] Hev. cbn in Hev. now apply Hapart.
Qed.

Lemma groupsAreRelated_spec (g1 g2 : list NormalizedEvent) :
  groupsAreRelated g1 g2 = true
  <-> exists k a b, In a g1 /\ In b g2 /\ In k (getCorrelationKeys a)
                    /\ In k (getCorrelationKeys b).
Proof.
  unfold groupsAreRelated. rewrite existsb_exists. split.
  - intros (k & Hk2 & Hk1). apply Set_has_In in Hk1.
    apply in_flat_map in Hk1 as (a & Ha & Hka).
    apply in_flat_map in Hk2 as (b & Hb & Hkb). eauto 8.
  - intros (k & a & b & Ha & Hb & Hka & Hkb). exists k. split.
    + apply in_flat_map. eauto.
    + apply Set_has_In, in_flat_map. eauto.
Qed.

Section MergeFacts.

Variable localeCompare : string -> string -> Z.

Lemma mergeRelatedGroups_single (k : string) (evs : list NormalizedEvent) :
  mergeRelatedGroups localeCompare [(k, evs)] = [(k, Array_sort (byTime localeCompare) evs)].
Proof.
  unfold mergeRelatedGroups, mergeStep, relatedOthers. cbn.
  rewrite String.eqb_refl. cbn. rewrite app_nil_r. reflexivity.
Qed.

Lemma mergeRelatedGroups_apart (k1 k2 : string) (g1 g2 : list NormalizedEvent) :
  k1 <> k2 -> groupsAreRelated g1 g2 = false ->
  mergeRelatedGroups localeCompare [(k1, g1); (k2, g2)]
  = [(k1, Array_sort (byTime localeCompare) g1); (k2, Array_sort (byTime localeCompare) g2)].
Proof.
  intros Hne R12. apply String.eqb_neq in Hne.
  assert (Hne' : String.eqb k2 k1 = false) by (now rewrite String.eqb_sym).
  unfold mergeRelatedGroups, mergeStep, relatedOthers.
  cbn -[groupsAreRelated Array_sort].
  rewrite !String.eqb_refl, ?Hne, ?Hne', ?R12.
  cbn -[groupsAreRelated Array_sort].
  rewrite ?String.eqb_refl, ?Hne, ?Hne', ?R12.
  cbn -[groupsAreRelated Array_sort].
  rewrite ?String.eqb_refl, ?Hne, ?Hne', ?R12.
  cbn -[groupsAreRelated Array_sort].
  rewrite ?app_nil_r. reflexivity.
Qed.

End MergeFacts.

(** *** The [correlate] loop *)

Section Correlate.

Variable localeCompare : string -> string -> Z.
Variable ulid : nat -> string.
Variable Date_getTime : string -> option Z.
Variable Store : Type.
Variable saveEpisode : Episode -> Store -> Completion unit * Store.

Let createEpisode' := createEpisode localeCompare ulid Date_getTime Store.
Let correlateLoop' := correlateLoop localeCompare ulid Date_getTime Store saveEpisode.

Let assembledFrom := assembledFrom localeCompare ulid Date_getTime Store.
Let Saved := Saved Store saveEpisode.

Lemma createEpisode_inv (evs : list NormalizedEvent) (type : EpisodeType)
                        (w w' : World Store) (ep : Episode) :
  createEpisode' evs type w = (Normal ep, w') ->
  evs <> []
  /\ episode_type ep = type
  /\ events ep = map event_id (Array_sort (byTime localeCompare) evs)
  /\ graph ep = buildCausalGraph Date_getTime (Array_sort (byTime localeCompare) evs)
  /\ primary_actor ep = mostCommon (actorCounts evs)
  /\ primary_target ep = mostCommon (targetCounts evs)
  /\ w' = mkWorld (S (next_id w)) (store w).
Proof.
  unfold createEpisode', createEpisode, bind, generateId.
  destruct (Array_sort (byTime localeCompare) evs) as [|first rest] eqn:E; cbn.
  - discriminate.
  - intros [= <- <-]. cbn. repeat split; try reflexivity.
    intros ->. discriminate E.
Qed.

(** With a storage that acknowledges every write, the loop returns one
    episode per group, in the order of the groups. *)
Lemma correlateLoop_acked (groups : Groups) :
  (forall ep s, exists s', saveEpisode ep s = (Normal tt, s')) ->
  (forall g, In g groups -> snd g <> []) ->
  forall acc w,
  exists eps w',
    correlateLoop' groups acc w = (Normal (acc ++ eps), w')
    /\ Forall2 (fun g ep => assembledFrom (snd g) ep) groups eps.
Proof.
  intros Hack. induction groups as [|[k evs] rest IH]; intros Hne acc w.
  - exists [], w. rewrite app_nil_r. split; [reflexivity|constructor].
  - destruct (createEpisode_nonempty localeCompare ulid Date_getTime Store evs
                (determineEpisodeType evs) w (Hne (k, evs) (or_introl eq_refl)))
      as (first & others & _ & C).
    remember (mkEpisode _ _ _ _ _ _ _ _) as ep eqn:Eep in C.
    destruct (Hack ep (store w)) as (s' & Hs).
    destruct (IH (fun g Hg => Hne g (or_intror Hg)) (acc ++ [ep])
                 (mkWorld (S (next_id w)) s')) as (eps & w' & L & F).
    exists (ep :: eps), w'. split.
    + unfold correlateLoop' in *. cbn [correlateLoop]. unfold bind at 1.
      rewrite C. unfold bind at 1. unfold storage_saveEpisode.
      cbn [store next_id]. rewrite Hs. rewrite L, <- app_assoc. reflexivity.
    + constructor; [|exact F]. exists w. eexists. exact C.
Qed.

Lemma sort_pair_in_order (a b : NormalizedEvent) :
  localeCompare (time a) (time b) <= 0 ->
  Array_sort (byTime localeCompare) [a; b] = [a; b].
Proof.
  intro H. cbn. unfold byTime.
  destruct (Z.leb_spec (localeCompare (time a) (time b)) 0); [reflexivity|lia].
Qed.

Lemma sort_pair_swapped (a b : NormalizedEvent) :
  0 < localeCompare (time b) (time a) ->
  Array_sort (byTime localeCompare) [b; a] = [a; b].
Proof.
  intro H. cbn. unfold byTime.
  destruct (Z.leb_spec (localeCompare (time b) (time a)) 0); [lia|reflexivity].
Qed.

Lemma commit_only_keys (e : NormalizedEvent) (sha : string) :
  sha <> EmptyString ->
  correlation e = bag None (Some sha) None None None ->
  getCorrelationKeys e = [("commit:" ++ sha)%string].
Proof.
  intros Hne Hc. unfold getCorrelationKeys, corr. rewrite Hc. cbn.
  destruct (String.eqb_spec sha EmptyString); [contradiction|reflexivity].
Qed.

(** C2 (scenario A): a PR_MERGED event and a DEPLOYMENT event that both carry
    only commit_sha abc123, the deployment's time sorting strictly after the
    merge's under the collation (as T+5min does after T for time stamps of
    the fixed format), in a storage that acknowledges writes: [correlate]
    returns exactly one episode, a DeploymentEpisode over the two events,
    with the single edge event1 -> event2 of type CAUSES. *)
Theorem C2_merge_causes_deployment (event1 event2 : NormalizedEvent)
                                   (batch : list NormalizedEvent)
                                   (w : World Store) :
  kind event1 = PR_MERGED -> kind event2 = DEPLOYMENT ->
  correlation event1 = bag None (Some "abc123") None None None ->
  correlation event2 = bag None (Some "abc123") None None None ->
  localeCompare (time event1) (time event2) < 0 ->
  0 < localeCompare (time event2) (time event1) ->
  batch = [event1; event2] \/ batch = [event2; event1] ->
  (forall ep s, exists s', saveEpisode ep s = (Normal tt, s')) ->
  exists ep w',
    correlate localeCompare ulid Date_getTime Store saveEpisode batch w
    = (Normal [ep], w')
    /\ episode_type ep = DeploymentEpisode
    /\ events ep = [event_id event1; event_id event2]
    /\ nodes (graph ep) = [event_id event1; event_id event2]
    /\ edges (graph ep)
       = [mkEdge (event_id event1) (event_id event2) CAUSES].
Proof.
  intros K1 K2 C1 C2 Hlt Hgt Hbatch Hack.
  assert (Hle : localeCompare (time event1) (time event2) <= 0) by lia.
  assert (Hsha : "abc123" <> EmptyString) by discriminate.
  pose proof (commit_only_keys event1 _ Hsha C1) as Ks1.
  pose proof (commit_only_keys event2 _ Hsha C2) as Ks2.
  cbn [String.append] in Ks1, Ks2.
  assert (Htr : truthy (Some "commit:abc123") = true) by reflexivity.
  assert (G : groupEvents localeCompare batch = [("commit:abc123", [event1; event2])]).
  { unfold groupEvents, seedGroups.
    destruct Hbatch as [-> | ->]; cbn [fold_left].
    - rewrite (groupStep_first event1 _ _ Ks1).
      rewrite (groupStep_join _ [event1] event2 Htr).
      + rewrite mergeRelatedGroups_single. cbn [app].
        now rewrite (sort_pair_in_order _ _ Hle).
      + exists "commit:abc123", event1. rewrite Ks1, Ks2. cbn. auto.
    - rewrite (groupStep_first event2 _ _ Ks2).
      rewrite (groupStep_join _ [event2] event1 Htr).
      + rewrite mergeRelatedGroups_single. cbn [app].
        now rewrite (sort_pair_swapped _ _ Hgt).
      + exists "commit:abc123", event2. rewrite Ks1, Ks2. cbn. auto. }
  assert (Hne : forall g, In g [("commit:abc123", [event1; event2])] ->
                          snd g <> [])
    by (intros g [<-|[]]; discriminate).
  destruct (correlateLoop_acked _ Hack Hne [] w) as (eps & w' & L & F).
  rewrite <- G in L at 1.
  inversion F as [|g ep gs eps' (w0 & w1 & Hep) F' E1 E2]; subst.
  inversion F'; subst. clear F F'.
  exists ep, w'. split; [exact L|].
  apply createEpisode_inv in Hep
    as (_ & Hty & Hev & Hgr & _). cbn [snd] in *.
  rewrite (sort_pair_in_order _ _ Hle) in Hev, Hgr.
  rewrite Hty, Hev, Hgr. cbn [map nodes edges buildCausalGraph allEdges edgesFrom].
  assert (I : inferRelationship Date_getTime event1 event2 = Some CAUSES).
  { unfold inferRelationship, rule1, corr. rewrite K1, K2, C1, C2. reflexivity. }
  rewrite I. repeat split.
  unfold determineEpisodeType. cbn. rewrite K1, K2. reflexivity.
Qed.

Lemma Array_sort_fixpoint {T : Type} (cmp : T -> T -> Z) (l : list T) :
  StronglySorted (fun a b => cmp a b <= 0) l -> Array_sort cmp l = l.
Proof.
  induction 1 as [|x r Hr IH Hx]; [reflexivity|].
  cbn. fold (Array_sort cmp r). rewrite IH.
  destruct r as [|y r']; [reflexivity|]. cbn.
  inversion Hx as [|? ? Hxy _]; subst.
  destruct (Z.leb_spec (cmp x y) 0); [reflexivity|lia].
Qed.

Lemma trace_key_in (e : NormalizedEvent) (x : string) :
  corr trace_id e = Some x -> x <> EmptyString ->
  In ("trace:" ++ x)%string (getCorrelationKeys e).
Proof.
  intros H Hne. unfold getCorrelationKeys. rewrite H. cbn [truthy template].
  destruct (String.eqb_spec x EmptyString); [contradiction|].
  cbn [negb]. rewrite !in_app_iff. right. right. right. left. now left.
Qed.

Lemma keys_head (e : NormalizedEvent) (k : string) :
  In k (getCorrelationKeys e) ->
  exists k0 rest, getCorrelationKeys e = k0 :: rest.
Proof.
  destruct (getCorrelationKeys e) as [|k0 rest]; [contradiction|eauto].
Qed.

(** C3 (scenario C): A and B carry trace id X, C carries trace id Y and
    shares no correlation key with A or B.  The batch A, B, C falls into
    exactly two groups, one made of exactly A and B and one made of C
    alone; with a storage that acknowledges writes, [correlate] returns the
    two corresponding episodes. *)
Theorem C3_two_traces_two_groups (A B C : NormalizedEvent) (X Y : string)
                                 (w : World Store) :
  corr trace_id A = Some X -> corr trace_id B = Some X ->
  corr trace_id C = Some Y ->
  X <> EmptyString -> Y <> EmptyString ->
  (forall k, In k (getCorrelationKeys C) ->
             ~ In k (getCorrelationKeys A) /\ ~ In k (getCorrelationKeys B)) ->
  exists kAB kC gAB,
    groupEvents localeCompare [A; B; C] = [(kAB, gAB); (kC, [C])]
    /\ Permutation gAB [A; B]
    /\ ((forall ep s, exists s', saveEpisode ep s = (Normal tt, s')) ->
        exists ep1 ep2 w',
          correlate localeCompare ulid Date_getTime Store saveEpisode
                    [A; B; C] w
          = (Normal [ep1; ep2], w')
          /\ Permutation (events ep1) [event_id A; event_id B]
          /\ events ep2 = [event_id C]).
Proof.
  intros TA TB TC HX HY Hapart.
  pose proof (trace_key_in A X TA HX) as InA.
  pose proof (trace_key_in B X TB HX) as InB.
  pose proof (trace_key_in C Y TC HY) as InC.
  destruct (keys_head A _ InA) as (kA & restA & EA).
  destruct (keys_head C _ InC) as (kC & restC & EC).
  assert (HkA : In kA (getCorrelationKeys A)) by (rewrite EA; now left).
  assert (HkC : In kC (getCorrelationKeys C)) by (rewrite EC; now left).
  assert (Hne : kA <> kC).
  { intros ->. now apply (proj1 (Hapart kC HkC)). }
  assert (Seed : seedGroups [A; B; C] = [(kA, [A; B]); (kC, [C])]).
  { unfold seedGroups. cbn [fold_left].
    rewrite (groupStep_first A kA restA EA).
    rewrite (groupStep_join kA [A] B (getCorrelationKeys_truthy A kA HkA)).
    - cbn [List.app].
      apply (groupStep_apart kA [A; B] C kC restC EC Hne).
      intros key ev Hkey [<-|[<-|[]]]; now apply Hapart.
    - exists ("trace:" ++ X)%string, A.
      split; [exact InB|split; [now left|exact InA]]. }
  assert (Rel : groupsAreRelated [A; B] [C] = false).
  { destruct (groupsAreRelated [A; B] [C]) eqn:R; [|reflexivity].
    apply groupsAreRelated_spec in R as (k & a & b & Ha & Hb & Hka & Hkb).
    destruct Hb as [<-|[]].
    destruct (Hapart k Hkb) as [NA NB].
    destruct Ha as [<-|[<-|[]]]; contradiction. }
  assert (G : groupEvents localeCompare [A; B; C]
              = [(kA, Array_sort (byTime localeCompare) [A; B]); (kC, [C])]).
  { unfold groupEvents. rewrite Seed.
    now rewrite (mergeRelatedGroups_apart localeCompare kA kC [A; B] [C] Hne Rel). }
  exists kA, kC, (Array_sort (byTime localeCompare) [A; B]).
  split; [exact G|]. split; [apply Array_sort_perm|].
  intro Hack.
  assert (Hnonempty : forall g,
            In g [(kA, Array_sort (byTime localeCompare) [A; B]); (kC, [C])] -> snd g <> []).
  { intros g [<-|[<-|[]]]; cbn [snd]; [|discriminate].
    intro E. apply Array_sort_nil_iff in E. discriminate. }
  destruct (correlateLoop_acked _ Hack Hnonempty [] w) as (eps & w' & L & F).
  rewrite <- G in L at 1.
  inversion F as [|g1 ep1 gs eps1 (w0 & w1 & H1) F1 E1 E2]; subst.
  inversion F1 as [|g2 ep2 gs' eps2 (w2 & w3 & H2) F2 E3 E4]; subst.
  inversion F2; subst. clear F F1 F2.
  exists ep1, ep2, w'. split; [exact L|].
  apply createEpisode_inv in H1 as (_ & _ & Hev1 & _).
  apply createEpisode_inv in H2 as (_ & _ & Hev2 & _).
  cbn [snd] in *. split; [|exact Hev2].
  rewrite Hev1.
  change [event_id A; event_id B] with (map event_id [A; B]).
  apply Permutation_map.
  etransitivity; [apply Array_sort_perm|].
  exact (Array_sort_perm (byTime localeCompare) [A; B]).
Qed.

(** *** Graph nodes and edges *)

Lemma edgesFrom_endpoints (event : NormalizedEvent)
                          (laterEvents : list NormalizedEvent) (edge : GraphEdge) :
  In edge (edgesFrom Date_getTime event laterEvents) ->
  edge_from edge = event_id event
  /\ In (edge_to edge) (map event_id laterEvents).
Proof.
  induction laterEvents as [|l r IH]; cbn; [contradiction|].
  destruct (inferRelationship Date_getTime event l).
  - intros [<-|H]; cbn; [auto|]. destruct (IH H); auto.
  - intro H. destruct (IH H); auto.
Qed.

Lemma allEdges_endpoints (evs : list NormalizedEvent) (edge : GraphEdge) :
  In edge (allEdges Date_getTime evs) ->
  In (edge_from edge) (map event_id evs) /\ In (edge_to edge) (map event_id evs).
Proof.
  induction evs as [|e r IH]; cbn; [contradiction|].
  rewrite in_app_iff. intros [H|H].
  - apply edgesFrom_endpoints in H as [-> H]. auto.
  - destruct (IH H). auto.
Qed.

(** Every event of the batch sits in exactly one seed group. *)

Lemma Map_push_concat {V : Type} (m : JsMap (list V)) (k : string) (x : V) :
  Map_has m k = true ->
  Permutation (List.concat (map snd (Map_push m k x)))
              (x :: List.concat (map snd m)).
Proof.
  induction m as [|[k' xs] r IH]; cbn; [discriminate|].
  destruct (String.eqb k' k); cbn.
  - intros _. rewrite <- app_assoc. cbn.
    symmetry. apply Permutation_middle.
  - intro H. rewrite (IH H). symmetry. apply Permutation_middle.
Qed.

Lemma Map_set_absent {V : Type} (m : JsMap V) (k : string) (v : V) :
  Map_has m k = false -> Map_set m k v = m ++ [(k, v)].
Proof.
  induction m as [|[k' v'] r IH]; cbn; [reflexivity|].
  destruct (String.eqb k' k); cbn; [discriminate|].
  intro H. now rewrite (IH H).
Qed.

Lemma Map_has_app {V : Type} (m1 m2 : JsMap V) (k : string) :
  Map_has (m1 ++ m2) k = Map_has m1 k || Map_has m2 k.
Proof.
  induction m1 as [|[k' v'] r IH]; cbn; [reflexivity|].
  now rewrite IH, orb_assoc.
Qed.

Lemma groupStep_concat (groups : Groups) (event : NormalizedEvent) :
  Permutation (List.concat (map snd (groupStep groups event)))
              (event :: List.concat (map snd groups)).
Proof.
  unfold groupStep.
  set (groupKey := match scanKeys _ _ _ with Some _ => _ | None => _ end).
  destruct (Map_has groups groupKey) eqn:E.
  - now apply Map_push_concat.
  - rewrite (Map_set_absent _ _ _ E). rewrite Map_push_concat.
    + rewrite map_app, concat_app. cbn. now rewrite !app_nil_r.
    + rewrite Map_has_app. cbn. rewrite String.eqb_refl. apply orb_true_r.
Qed.

Lemma seedGroups_concat (evs : list NormalizedEvent) :
  Permutation (List.concat (map snd (seedGroups evs))) evs.
Proof.
  unfold seedGroups.
  enough (H : forall groups,
            Permutation (List.concat (map snd (fold_left groupStep evs groups)))
                        (List.concat (map snd groups) ++ evs))
    by exact (H []).
  induction evs as [|e r IH]; intro groups; cbn [fold_left].
  - now rewrite app_nil_r.
  - rewrite IH, groupStep_concat. cbn [List.app]. apply Permutation_middle.
Qed.

Lemma NoDup_app_inv {T : Type} (l1 l2 : list T) :
  NoDup (l1 ++ l2) ->
  NoDup l1 /\ NoDup l2 /\ (forall a, In a l1 -> ~ In a l2).
Proof.
  intro H. split; [eapply NoDup_app_remove_r; eassumption|].
  split; [eapply NoDup_app_remove_l; eassumption|].
  induction l1 as [|x r IH]; [intros a []|].
  cbn in H. apply NoDup_cons_iff in H as [Hx Hr].
  intros a [<-|Ha] Hin.
  - apply Hx, in_or_app. now right.
  - now apply (IH Hr a).
Qed.

(** Filtering groups keeps identifiers distinct. *)

Lemma filter_groups_incl (P : string * list NormalizedEvent -> bool)
                         (gs : Groups) :
  incl (List.concat (map snd (filter P gs))) (List.concat (map snd gs)).
Proof.
  induction gs as [|g r IH]; cbn; [apply incl_refl|].
  destruct (P g); cbn.
  - apply incl_app; [apply incl_appl, incl_refl|apply incl_appr, IH].
  - apply incl_appr, IH.
Qed.

Lemma filter_groups_NoDup (P : string * list NormalizedEvent -> bool)
                          (gs : Groups) :
  NoDup (map event_id (List.concat (map snd gs))) ->
  NoDup (map event_id (List.concat (map snd (filter P gs)))).
Proof.
  induction gs as [|g r IH]; cbn; [auto|].
  rewrite map_app. intro H. apply NoDup_app_inv in H as (N1 & N2 & D).
  destruct (P g); cbn; [|auto].
  rewrite map_app. apply NoDup_app; auto.
  intros x Hx Hx'. apply (D x Hx).
  apply in_map_iff in Hx' as (e & <- & He). apply in_map.
  now apply (filter_groups_incl P r).
Qed.

(** What a merged group is made of: a seed group followed by the other seed
    groups picked by the merge pass. *)
Lemma mergeRelatedGroups_entries (groups : Groups)
                                 (entry : string * list NormalizedEvent) :
  In entry (mergeRelatedGroups localeCompare groups) ->
  exists key evs processed,
    In (key, evs) groups
    /\ snd entry
       = Array_sort (byTime localeCompare)
           (evs ++ List.concat (map snd (relatedOthers groups processed key evs))).
Proof.
  unfold mergeRelatedGroups.
  set (Inv := fun merged : Groups =>
         forall e, In e merged ->
         exists key evs processed,
           In (key, evs) groups
           /\ snd e
              = Array_sort (byTime localeCompare)
                  (evs ++ List.concat
                            (map snd (relatedOthers groups processed key evs)))).
  enough (H : forall l st, incl l groups -> Inv (fst st) ->
                           Inv (fst (fold_left (mergeStep localeCompare groups) l st))).
  { intro Hin. apply (H groups ([], [])); auto.
    - apply incl_refl.
    - intros e []. }
  induction l as [|[key evs] r IH]; intros [merged processed] Hl HI;
    cbn [fold_left]; [exact HI|].
  apply IH; [intros x Hx; apply Hl; now right|].
  unfold mergeStep. destruct (Set_has processed key); [exact HI|].
  cbn [fst]. intros e He.
  assert (S : forall (m : Groups) k v e0,
            In e0 (Map_set m k v) -> In e0 m \/ snd e0 = v).
  { clear. induction m as [|[k' v'] m IHm]; cbn; intros k v e0 H.
    - destruct H as [<-|[]]. now right.
    - destruct (String.eqb k' k); destruct H as [<-|H]; cbn; auto.
      destruct (IHm _ _ _ H); auto. }
  apply S in He as [He|He]; [now apply HI|].
  exists key, evs, processed. split; [apply Hl; now left|exact He].
Qed.

Lemma merged_group_ids (groups : Groups) (key : string)
                       (evs : list NormalizedEvent) (processed : list string) :
  In (key, evs) groups ->
  NoDup (map event_id (List.concat (map snd groups))) ->
  NoDup (map event_id
           (evs ++ List.concat (map snd (relatedOthers groups processed key evs)))).
Proof.
  intros Hin N. apply in_split in Hin as (g1 & g2 & ->).
  unfold relatedOthers. rewrite filter_app. cbn [filter fst snd].
  rewrite String.eqb_refl. cbn [orb negb andb].
  rewrite <- filter_app.
  assert (P : Permutation (List.concat (map snd (g1 ++ (key, evs) :: g2)))
                          (evs ++ List.concat (map snd (g1 ++ g2)))).
  { rewrite !map_app, !concat_app. cbn.
    rewrite !app_assoc. apply Permutation_app_tail, Permutation_app_comm. }
  apply (Permutation_map event_id) in P.
  apply (Permutation_NoDup P) in N.
  rewrite map_app in *. apply NoDup_app_inv in N as (N1 & N2 & D).
  apply NoDup_app; auto.
  - now apply filter_groups_NoDup.
  - intros x Hx Hx'. apply (D x Hx).
    apply in_map_iff in Hx' as (e & <- & He). apply in_map.
    eapply filter_groups_incl; eassumption.
Qed.

Lemma merged_group_incl (groups : Groups) (key : string)
                        (evs : list NormalizedEvent) (processed : list string) :
  In (key, evs) groups ->
  incl (evs ++ List.concat (map snd (relatedOthers groups processed key evs)))
       (List.concat (map snd groups)).
Proof.
  intros Hin. apply incl_app.
  - intros x Hx. apply in_concat. exists evs. split; [|exact Hx].
    apply in_map_iff. now exists (key, evs).
  - apply filter_groups_incl.
Qed.

(** Whatever the storage does, the episodes [correlate] returns are the
    ones assembled from the groups, in order. *)
Lemma correlateLoop_returns (groups : Groups) :
  forall acc w eps w',
    correlateLoop' groups acc w = (Normal eps, w') ->
    exists new,
      eps = acc ++ new
      /\ Forall2 (fun g ep => assembledFrom (snd g) ep) groups new.
Proof.
  induction groups as [|[k evs] rest IH]; intros acc w eps w' H.
  - injection H as <- <-. exists []. rewrite app_nil_r. split; constructor.
  - unfold correlateLoop' in H. cbn [correlateLoop] in H. unfold bind at 1 in H.
    destruct (createEpisode localeCompare ulid Date_getTime Store evs
                (determineEpisodeType evs) w) as [[ep|e] w1] eqn:C;
      [|discriminate].
    unfold bind at 1 in H. unfold storage_saveEpisode in H.
    destruct (saveEpisode ep (store w1)) as [[[]|e] s]; [|discriminate].
    apply IH in H as (new & -> & F).
    exists (ep :: new). rewrite <- app_assoc. split; [reflexivity|].
    constructor; [|exact F]. exists w, w1. exact C.
Qed.

Lemma Forall2_In_r {T U : Type} (R : T -> U -> Prop) (l1 : list T) (l2 : list U) :
  Forall2 R l1 l2 -> forall y, In y l2 -> exists x, In x l1 /\ R x y.
Proof.
  induction 1 as [|x y l1 l2 Hxy _ IH]; intros y0 Hy; [contradiction|].
  destruct Hy as [<-|Hy].
  - exists x. split; [now left|exact Hxy].
  - destruct (IH _ Hy) as (x0 & Hx0 & Hr). exists x0. split; [now right|exact Hr].
Qed.

(** C5: in every episode [correlate] returns, the node list of the graph is
    the episode's event-id list, every node is the id of an event of the
    batch, both ends of every edge are nodes, and the nodes are pairwise
    distinct when the ids of the batch's events are (ids are unique in the
    data model). *)
Theorem C5_graph_nodes (evs : list NormalizedEvent) (w w' : World Store)
                       (eps : list Episode) :
  correlate localeCompare ulid Date_getTime Store saveEpisode evs w = (Normal eps, w') ->
  forall ep, In ep eps ->
    nodes (graph ep) = events ep
    /\ incl (nodes (graph ep)) (map event_id evs)
    /\ (forall edge, In edge (edges (graph ep)) ->
          In (edge_from edge) (nodes (graph ep))
          /\ In (edge_to edge) (nodes (graph ep)))
    /\ (NoDup (map event_id evs) -> NoDup (nodes (graph ep))).
Proof.
  intros H ep Hep.
  apply correlateLoop_returns in H as (new & -> & F). cbn [List.app] in Hep.
  destruct (Forall2_In_r _ _ _ F ep Hep) as ([k g] & Hg & w0 & w1 & C).
  cbn [snd] in C.
  apply createEpisode_inv in C as (_ & _ & Hev & Hgr & _).
  rewrite Hgr, Hev. cbn [nodes edges buildCausalGraph].
  apply mergeRelatedGroups_entries in Hg
    as (key & evs0 & processed & Hin & Hsnd). cbn [snd] in Hsnd.
  set (members := evs0 ++ List.concat
                           (map snd (relatedOthers (seedGroups evs) processed
                                       key evs0))) in *.
  assert (P : Permutation (Array_sort (byTime localeCompare) g) members).
  { rewrite Hsnd. etransitivity; apply Array_sort_perm. }
  split; [reflexivity|]. split; [|split].
  - intros x Hx. apply in_map_iff in Hx as (e & <- & He). apply in_map.
    apply (Permutation_in _ P) in He.
    apply (merged_group_incl _ _ _ processed Hin) in He.
    exact (Permutation_in _ (seedGroups_concat evs) He).
  - apply allEdges_endpoints.
  - intro N.
    apply (Permutation_NoDup (Permutation_map event_id (Permutation_sym P))).
    apply merged_group_ids; [exact Hin|].
    apply (Permutation_NoDup
             (Permutation_map event_id
                (Permutation_sym (seedGroups_concat evs)))).
    exact N.
Qed.

(** *** Groups are never empty *)

Lemma Map_push_nonempty {V : Type} (m : JsMap (list V)) (k : string) (x : V) :
  (forall g, In g m -> snd g <> []) ->
  forall g, In g (Map_push m k x) -> snd g <> [].
Proof.
  induction m as [|[k' xs] r IH]; cbn; intros H g Hg; [contradiction|].
  destruct (String.eqb k' k); destruct Hg as [<-|Hg]; cbn.
  - destruct xs; discriminate.
  - apply H. now right.
  - apply (H (k', xs)). now left.
  - apply IH; auto.
Qed.

Lemma Map_push_fresh_nonempty {V : Type} (m : JsMap (list V)) (k : string)
                              (x : V) :
  Map_has m k = false ->
  (forall g, In g m -> snd g <> []) ->
  forall g, In g (Map_push (m ++ [(k, [])]) k x) -> snd g <> [].
Proof.
  induction m as [|[k' xs] r IH]; cbn; intros Hk H g Hg.
  - rewrite String.eqb_refl in Hg. destruct Hg as [<-|[]]. discriminate.
  - destruct (String.eqb k' k); [discriminate|]. cbn in Hk.
    destruct Hg as [<-|Hg]; cbn.
    + apply (H (k', xs)). now left.
    + apply (IH Hk); auto.
Qed.

Lemma groupStep_nonempty (groups : Groups) (event : NormalizedEvent) :
  (forall g, In g groups -> snd g <> []) ->
  forall g, In g (groupStep groups event) -> snd g <> [].
Proof.
  intro H. unfold groupStep.
  set (groupKey := match scanKeys _ _ _ with Some _ => _ | None => _ end).
  destruct (Map_has groups groupKey) eqn:E.
  - now apply Map_push_nonempty.
  - rewrite (Map_set_absent _ _ _ E). now apply Map_push_fresh_nonempty.
Qed.

Lemma seedGroups_nonempty (evs : list NormalizedEvent) :
  forall g, In g (seedGroups evs) -> snd g <> [].
Proof.
  unfold seedGroups.
  enough (H : forall groups,
            (forall g, In g groups -> snd g <> []) ->
            forall g, In g (fold_left groupStep evs groups) -> snd g <> [])
    by (apply H; intros g []).
  induction evs as [|e r IH]; intros groups H; cbn [fold_left]; [exact H|].
  apply IH. now apply groupStep_nonempty.
Qed.

Lemma groupEvents_nonempty (evs : list NormalizedEvent) :
  forall g, In g (groupEvents localeCompare evs) -> snd g <> [].
Proof.
  intros g Hg. apply mergeRelatedGroups_entries in Hg
    as (key & evs0 & processed & Hin & ->).
  intro E. apply Array_sort_nil_iff in E.
  apply app_eq_nil in E as [E _].
  apply (seedGroups_nonempty evs (key, evs0) Hin). exact E.
Qed.

(** *** Storage failures *)

(** A run of the loop over non-empty groups: either every episode is
    assembled and saved, or the first failing write ends the loop. *)
Lemma correlateLoop_trace (groups : Groups) :
  (forall g, In g groups -> snd g <> []) ->
  forall acc w,
    match correlateLoop' groups acc w with
    | (Normal eps, w') =>
        exists new,
          eps = acc ++ new
          /\ Forall2 (fun g ep => assembledFrom (snd g) ep) groups new
          /\ Saved (store w) new (store w')
    | (Throw e, w') =>
        exists gdone gfail grest done failed s1,
          groups = gdone ++ gfail :: grest
          /\ Forall2 (fun g ep => assembledFrom (snd g) ep) gdone done
          /\ assembledFrom (snd gfail) failed
          /\ Saved (store w) done s1
          /\ saveEpisode failed s1 = (Throw e, store w')
    end.
Proof.
  induction groups as [|[k evs] rest IH]; intros Hne acc w.
  - cbn. exists []. rewrite app_nil_r. repeat split; constructor.
  - destruct (createEpisode_nonempty localeCompare ulid Date_getTime Store evs
                (determineEpisodeType evs) w (Hne (k, evs) (or_introl eq_refl)))
      as (first & others & _ & C).
    remember (mkEpisode _ _ _ _ _ _ _ _) as ep eqn:Eep in C.
    assert (A : assembledFrom evs ep) by (exists w; eexists; exact C).
    unfold correlateLoop'. cbn [correlateLoop]. unfold bind at 1.
    rewrite C. unfold bind at 1. unfold storage_saveEpisode. cbn [store next_id].
    destruct (saveEpisode ep (store w)) as [[[]|e] s] eqn:Sv.
    + specialize (IH (fun g Hg => Hne g (or_intror Hg)) (acc ++ [ep])
                     (mkWorld (S (next_id w)) s)).
      unfold correlateLoop' in IH.
      destruct (correlateLoop localeCompare ulid Date_getTime Store saveEpisode rest
                  (acc ++ [ep]) (mkWorld (S (next_id w)) s)) as [[eps|e] w'].
      * destruct IH as (new & -> & F & Sd). exists (ep :: new).
        rewrite <- app_assoc. split; [reflexivity|]. split.
        -- constructor; assumption.
        -- econstructor; [exact Sv|exact Sd].
      * destruct IH as (gdone & gfail & grest & done & failed & s1
                        & -> & F & Af & Sd & Fl).
        exists ((k, evs) :: gdone), gfail, grest, (ep :: done), failed, s1.
        split; [reflexivity|]. split; [constructor; assumption|].
        split; [exact Af|]. split; [|exact Fl].
        econstructor; [exact Sv|exact Sd].
    + exists [], (k, evs), rest, [], ep, (store w).
      split; [reflexivity|]. split; [constructor|]. split; [exact A|].
      split; [constructor|exact Sv].
Qed.

(** C1, amended: [correlate] has no rollback.  When it fails, a
    [saveEpisode] write has failed; the episodes of the groups before the
    failing one were assembled and saved, and they stay saved: the storage
    is left as the failing write left it after those writes.  When it
    returns, every group's episode has been saved, in order. *)
Theorem C1_no_rollback (evs : list NormalizedEvent) (w : World Store) :
  (forall e w',
     correlate localeCompare ulid Date_getTime Store saveEpisode evs w = (Throw e, w') ->
     exists gdone gfail grest done failed s1,
       groupEvents localeCompare evs = gdone ++ gfail :: grest
       /\ Forall2 (fun g ep => assembledFrom (snd g) ep) gdone done
       /\ assembledFrom (snd gfail) failed
       /\ Saved (store w) done s1
       /\ saveEpisode failed s1 = (Throw e, store w'))
  /\ (forall eps w',
        correlate localeCompare ulid Date_getTime Store saveEpisode evs w = (Normal eps, w') ->
        Forall2 (fun g ep => assembledFrom (snd g) ep) (groupEvents localeCompare evs) eps
        /\ Saved (store w) eps (store w')).
Proof.
  pose proof (correlateLoop_trace (groupEvents localeCompare evs)
                (groupEvents_nonempty evs) [] w) as T.
  unfold correlateLoop', correlate in *. split.
  - intros e w' H. rewrite H in T. exact T.
  - intros eps w' H. rewrite H in T. destruct T as (new & -> & F & S). auto.
Qed.

End Correlate.

(** *** Counting and the most frequent key *)

Lemma Map_get_In {V : Type} (m : JsMap V) (k : string) (v : V) :
  Map_get m k = Some v -> In (k, v) m.
Proof.
  induction m as [|[k' v'] r IH]; cbn; [discriminate|].
  destruct (String.eqb_spec k' k).
  - intros [= <-]. subst. now left.
  - intro H. right. now apply IH.
Qed.

Lemma Map_get_None {V : Type} (m : JsMap V) (k : string) :
  Map_get m k = None <-> ~ In k (map fst m).
Proof.
  induction m as [|[k' v'] r IH]; cbn; [tauto|].
  destruct (String.eqb_spec k' k).
  - split; [discriminate|]. intro H. exfalso. apply H. now left.
  - rewrite IH. tauto.
Qed.

Lemma Map_has_get {V : Type} (m : JsMap V) (k : string) :
  Map_get m k = None -> Map_has m k = false.
Proof.
  induction m as [|[k' v'] r IH]; cbn; [reflexivity|].
  destruct (String.eqb k' k); [discriminate|]. exact IH.
Qed.

Lemma Map_set_keys {V : Type} (m : JsMap V) (k : string) (v0 v : V) :
  Map_get m k = Some v0 -> map fst (Map_set m k v) = map fst m.
Proof.
  induction m as [|[k' v'] r IH]; cbn; [discriminate|].
  destruct (String.eqb k' k); cbn; [reflexivity|].
  intro H. now rewrite (IH H).
Qed.

Lemma Map_set_In {V : Type} (m : JsMap V) (k : string) (v : V)
                 (k1 : string) (v1 : V) :
  NoDup (map fst m) ->
  In (k1, v1) (Map_set m k v) ->
  (k1 = k /\ v1 = v) \/ (k1 <> k /\ In (k1, v1) m).
Proof.
  induction m as [|[k' v'] r IH]; cbn; intros N H.
  - destruct H as [[= <- <-]|[]]. now left.
  - apply NoDup_cons_iff in N as [Nk Nr].
    destruct (String.eqb_spec k' k) as [->|Hne].
    + destruct H as [[= <- <-]|H]; [now left|].
      right. split; [|now right].
      intros ->. apply Nk. apply in_map_iff. now exists (k, v1).
    + destruct H as [[= <- <-]|H]; [right; split; [exact Hne|now left]|].
      destruct (IH Nr H) as [?|[? ?]]; [now left|right; split; auto].
Qed.

(** The head of the stable sort by decreasing count: the first entry whose
    count no other entry exceeds. *)
Lemma sort_desc_head {V : Type} (l : list (V * Z)) (top : V * Z)
                     (rest : list (V * Z)) :
  Array_sort byCountDesc l = top :: rest ->
  exists s1 s2,
    l = s1 ++ top :: s2
    /\ (forall x, In x s1 -> snd x < snd top)
    /\ (forall x, In x s2 -> snd x <= snd top).
Proof.
  revert top rest. induction l as [|a r IH]; intros top rest H; [discriminate|].
  cbn in H. fold (Array_sort (@byCountDesc V) r) in H.
  destruct (Array_sort byCountDesc r) as [|t rest'] eqn:E.
  - apply Array_sort_nil_iff in E. subst r. cbn in H. injection H as <- <-.
    exists [], []. repeat split; intros x [].
  - destruct (IH t rest' eq_refl) as (s1 & s2 & -> & L1 & L2).
    cbn in H. unfold byCountDesc at 1 in H.
    destruct (Z.leb_spec (snd t - snd a) 0) as [Hle|Hgt].
    + injection H as <- <-. exists [], (s1 ++ t :: s2).
      split; [reflexivity|]. split; [intros x []|].
      intros x Hx. apply in_app_iff in Hx as [Hx|[<-|Hx]].
      * specialize (L1 x Hx). lia.
      * lia.
      * specialize (L2 x Hx). lia.
    + injection H as <- <-. exists (a :: s1), s2.
      split; [reflexivity|]. split; [|exact L2].
      intros x [<-|Hx]; [lia|now apply L1].
Qed.

Lemma split_before {T : Type} (f : T -> string) (c1 c2 d1 d2 : list T) (x : T) :
  c1 ++ x :: c2 = d1 ++ d2 -> ~ In (f x) (map f d1) ->
  exists d, c1 = d1 ++ d.
Proof.
  revert c1. induction d1 as [|y d1 IH]; intros c1 H Hn.
  - exists c1. reflexivity.
  - destruct c1 as [|z c1]; cbn in H; injection H as -> H.
    + exfalso. apply Hn. now left.
    + destruct (IH c1 H) as (d & ->).
      * intro Hin. apply Hn. now right.
      * exists d. reflexivity.
Qed.

Lemma Map_set_split {V : Type} (c1 c2 : JsMap V) (k : string) (v : V) :
  exists c1' c2',
    Map_set (c1 ++ c2) k v = c1' ++ c2' /\ map fst c1' = map fst c1.
Proof.
  induction c1 as [|[k' v'] c1 IH]; cbn.
  - exists [], (Map_set c2 k v). split; reflexivity.
  - destruct (String.eqb k' k).
    + exists ((k', v) :: c1), c2. split; reflexivity.
    + destruct IH as (c1' & c2' & -> & E).
      exists ((k', v') :: c1'), c2'. cbn. rewrite E. split; reflexivity.
Qed.

Section Tally.

Context {E V : Type} (key : E -> string) (val : E -> V).

Let step (counts : JsMap (V * Z)) (e : E) : JsMap (V * Z) :=
  tally counts (key e) (val e).

Let occ (p : list E) (k : string) : Z := Z.of_nat (occurrences key p k).

Lemma occ_snoc (p : list E) (e : E) (k : string) :
  occ (p ++ [e]) k = occ p k + (if string_dec (key e) k then 1 else 0).
Proof.
  unfold occ, occurrences. rewrite map_app, count_occ_app. cbn.
  destruct (string_dec (key e) k); lia.
Qed.

Lemma occ_absent (p : list E) (k : string) :
  (forall e, In e p -> key e <> k) -> occ p k = 0.
Proof.
  intro H. unfold occ, occurrences.
  rewrite (proj1 (count_occ_not_In string_dec _ _)); [reflexivity|].
  intro Hin. apply in_map_iff in Hin as (e & He & Hin). now apply (H e).
Qed.

(** What the counting loop has built after the events [p]: one entry per
    key, holding the value of the key's first event and the number of its
    occurrences, the entries in the order in which the keys were first met. *)
Lemma tally_invariant (p : list E) :
  let counts := fold_left step p [] in
  NoDup (map fst counts)
  /\ (forall k v n, In (k, (v, n)) counts ->
        n = occ p k
        /\ exists pre e post,
             p = pre ++ e :: post /\ key e = k /\ val e = v
             /\ forall e', In e' pre -> key e' <> k)
  /\ (forall e, In e p -> In (key e) (map fst counts))
  /\ (forall pre post, p = pre ++ post ->
        exists c1 c2,
          counts = c1 ++ c2
          /\ forall k, In k (map fst c1) <-> exists e, In e pre /\ key e = k).
Proof.
  induction p as [|e p0 IH] using rev_ind; cbv zeta.
  - cbn. split; [constructor|]. split; [intros k v n []|].
    split; [intros e []|].
    intros pre post H. symmetry in H. apply app_eq_nil in H as [-> ->].
    exists [], []. split; [reflexivity|]. intro k. cbn. split; [intros []|].
    intros (e & [] & _).
  - rewrite fold_left_app. cbn [fold_left].
    cbv zeta in IH. set (counts := fold_left step p0 []) in *.
    destruct IH as (I1 & I2 & I3 & I4).
    set (k := key e).
    assert (J : NoDup (map fst (step counts e))
                /\ (forall k1 v1 n1, In (k1, (v1, n1)) (step counts e) ->
                      n1 = occ (p0 ++ [e]) k1
                      /\ exists pre e1 post,
                           p0 ++ [e] = pre ++ e1 :: post /\ key e1 = k1
                           /\ val e1 = v1
                           /\ forall e', In e' pre -> key e' <> k1)
                /\ (forall e1, In e1 (p0 ++ [e]) ->
                               In (key e1) (map fst (step counts e)))).
    { unfold step, tally. fold k.
      destruct (Map_get counts k) as [[v0 n0]|] eqn:G.
      - rewrite (Map_set_keys _ _ _ _ G). split; [exact I1|]. split.
        + intros k1 v1 n1 Hin. apply Map_set_In in Hin; [|exact I1].
          destruct Hin as [[-> [= -> ->]]|[Hne Hin]].
          * apply Map_get_In in G. destruct (I2 _ _ _ G)
              as (-> & pre & e1 & post & -> & K & Vv & F).
            split.
            -- rewrite occ_snoc. fold k.
               destruct (string_dec k k); [reflexivity|contradiction].
            -- exists pre, e1, (post ++ [e]).
               rewrite <- app_assoc. cbn. auto.
          * destruct (I2 _ _ _ Hin) as (-> & pre & e1 & post & -> & K & Vv & F).
            split.
            -- rewrite occ_snoc. fold k.
               destruct (string_dec k k1); [congruence|lia].
            -- exists pre, e1, (post ++ [e]).
               rewrite <- app_assoc. cbn. auto.
        + intros e1 He1. apply in_app_iff in He1 as [He1|[<-|[]]].
          * now apply I3.
          * apply Map_get_In in G. apply in_map_iff. now exists (k, (v0, n0)).
      - pose proof (proj1 (Map_get_None _ _) G) as Nk.
        rewrite (Map_set_absent _ _ _ (Map_has_get _ _ G)).
        assert (Fresh : forall e', In e' p0 -> key e' <> k).
        { intros e' He' Heq. apply Nk. rewrite <- Heq. now apply I3. }
        rewrite map_app. cbn [map fst]. split; [|split].
        + apply NoDup_app; [exact I1|repeat constructor; intros []|].
          intros a Ha [<-|[]]. contradiction.
        + intros k1 v1 n1 Hin. apply in_app_iff in Hin as [Hin|[[= <- <- <-]|[]]].
          * assert (Hne : k1 <> k).
            { intros ->. apply Nk. apply in_map_iff. now exists (k, (v1, n1)). }
            destruct (I2 _ _ _ Hin) as (-> & pre & e1 & post & -> & K & Vv & F).
            split.
            -- rewrite occ_snoc. fold k.
               destruct (string_dec k k1); [congruence|lia].
            -- exists pre, e1, (post ++ [e]).
               rewrite <- app_assoc. cbn. auto.
          * split.
            -- rewrite occ_snoc, (occ_absent p0 k Fresh). fold k.
               destruct (string_dec k k); [reflexivity|contradiction].
            -- exists p0, e, []. auto.
        + intros e1 He1. apply in_app_iff.
          apply in_app_iff in He1 as [He1|[<-|[]]].
          * left. now apply I3.
          * right. now left. }
    destruct J as (J1 & J2 & J3). split; [exact J1|]. split; [exact J2|].
    split; [exact J3|].
    intros pre post H.
    destruct post as [|x post0 _] using rev_ind.
    + rewrite app_nil_r in H. subst pre.
      exists (step counts e), []. rewrite app_nil_r. split; [reflexivity|].
      intro k1. split.
      * intro Hin. apply in_map_iff in Hin as ([k2 [v2 n2]] & <- & Hin).
        destruct (J2 _ _ _ Hin) as (_ & pre & e1 & post & Hp & K & _).
        exists e1. split; [|exact K]. rewrite Hp.
        apply in_app_iff. right. now left.
      * intros (e1 & He1 & <-). now apply J3.
    + rewrite app_assoc in H. apply app_inj_tail in H as [H _].
      destruct (I4 pre post0 H) as (c1 & c2 & Hc & Hk).
      unfold step, tally. rewrite Hc.
      destruct (Map_get (c1 ++ c2) (key e)) as [[v0 n0]|].
      * destruct (Map_set_split c1 c2 (key e) (v0, n0 + 1))
          as (c1' & c2' & -> & Ek).
        exists c1', c2'. split; [reflexivity|]. now rewrite Ek.
      * destruct (Map_set_split c1 c2 (key e) (val e, 1))
          as (c1' & c2' & -> & Ek).
        exists c1', c2'. split; [reflexivity|]. now rewrite Ek.
Qed.

End Tally.

Lemma mostCommon_first_max {E V : Type} (key : E -> string) (val : E -> V)
                           (evs : list E) :
  evs <> [] ->
  mostFrequentFirst key val evs
    (mostCommon (fold_left (fun counts e => tally counts (key e) (val e)) evs [])).
Proof.
  intro Hne.
  destruct (tally_invariant key val evs) as (I1 & I2 & I3 & I4).
  set (counts := fold_left (fun counts e => tally counts (key e) (val e))
                           evs []) in *.
  unfold mostCommon.
  destruct (Array_sort byCountDesc (map snd counts)) as [|top rest] eqn:S.
  - apply Array_sort_nil_iff in S. apply map_eq_nil in S.
    destruct evs as [|e r]; [contradiction|].
    specialize (I3 e (or_introl eq_refl)). rewrite S in I3. contradiction.
  - apply sort_desc_head in S as (s1 & s2 & Hs & L1 & L2).
    apply map_eq_app in Hs as (c1 & c2' & Hc & <- & Hs2).
    apply map_eq_cons in Hs2 as ([k [v n]] & c2 & -> & Ht & <-).
    cbn [snd] in Ht. subst top. cbn [fst snd] in *.
    assert (Hin : In (k, (v, n)) counts)
      by (rewrite Hc; apply in_app_iff; right; now left).
    destruct (I2 _ _ _ Hin) as (Hn & pre & e & post & Hp & K & Vv & F).
    assert (Bound : forall k' v' n', In (k', (v', n')) counts -> n' <= n).
    { intros k' v' n' H'. rewrite Hc in H'.
      apply in_app_iff in H' as [H'|[[= _ _ ->]|H']].
      - specialize (L1 (v', n') (in_map snd _ _ H')). cbn in L1. lia.
      - lia.
      - specialize (L2 (v', n') (in_map snd _ _ H')). exact L2. }
    exists pre, e, post. split; [exact Hp|]. split; [now rewrite Vv|].
    split; [intros e' He'; rewrite K; now apply F|]. split.
    + intros e' He'. specialize (I3 e' He').
      apply in_map_iff in I3 as ([k' [v' n']] & Hk' & H').
      cbn in Hk'. subst k'.
      destruct (I2 _ _ _ H') as (Hn' & _).
      specialize (Bound _ _ _ H'). rewrite K. lia.
    + intros e' He'.
      destruct (I4 pre (e :: post) Hp) as (d1 & d2 & Hd & Hk).
      assert (Nk : ~ In (fst (k, (v, n))) (map fst d1)).
      { cbn. intro X. apply Hk in X as (e0 & He0 & Ke0). now apply (F e0). }
      rewrite Hc in Hd.
      destruct (split_before fst c1 c2 d1 d2 (k, (v, n)) Hd Nk) as (d & ->).
      assert (X : In (key e') (map fst d1)) by (apply Hk; eauto).
      apply in_map_iff in X as ([k' [v' n']] & Hk' & H').
      cbn in Hk'. subst k'.
      assert (H1 : In (key e', (v', n')) counts) by
        (rewrite Hc; apply in_app_iff; left; apply in_app_iff; now left).
      destruct (I2 _ _ _ H1) as (Hn' & _).
      assert (Lt : n' < n).
      { apply (L1 (v', n')).
        apply (in_map snd _ (key e', (v', n'))). apply in_app_iff. now left. }
      rewrite K. lia.
Qed.

Section PrimaryActor.

Variable localeCompare : string -> string -> Z.
Variable ulid : nat -> string.
Variable Date_getTime : string -> option Z.
Variable Store : Type.

(** C9: for a non-empty group the primary actor is the actor of the most
    frequent actor id; among ids with the same highest count the one met
    first, going through the events in the order given, wins, and the actor
    object is the one of the first event with that id.  The primary target
    is computed in the same way from the target ids. *)
Theorem C9_primary_actor_and_target (evs : list NormalizedEvent)
                                    (type : EpisodeType) (w : World Store) :
  evs <> [] ->
  exists ep w',
    createEpisode localeCompare ulid Date_getTime Store evs type w = (Normal ep, w')
    /\ mostFrequentFirst (fun e => actor_id (actor e)) actor evs
                         (primary_actor ep)
    /\ mostFrequentFirst (fun e => target_id (target e)) target evs
                         (primary_target ep).
Proof.
  intro Hne.
  destruct (createEpisode_nonempty localeCompare ulid Date_getTime Store evs type w Hne)
    as (first & rest & _ & C).
  eexists. eexists. split; [exact C|]. cbn [primary_actor primary_target].
  split.
  - exact (mostCommon_first_max (fun e => actor_id (actor e)) actor evs Hne).
  - exact (mostCommon_first_max (fun e => target_id (target e)) target evs Hne).
Qed.

End PrimaryActor.

(* ================================================================== *)
(** ** The properties on the sample events                             *)
(* ================================================================== *)

Lemma appendSave_acks (ep : Episode) (s : list Episode) :
  exists s', appendSave ep s = (Normal tt, s').
Proof. eexists. reflexivity. Qed.

(** C1, as stated, fails: the storage accepts the episode of the first group
    and refuses the one of the second; [correlate] throws and the first
    episode is in the storage. *)
Lemma C1_partial_write_counterexample :
  fst refusedRun = Throw StorageFailure
  /\ (exists ep, store (snd refusedRun) = [ep] /\ events ep = ["A"])
  /\ ~ (forall evs w e w',
          correlate lexCompare demoId isoTime (list Episode) (boundedSave 1) evs w
          = (Throw e, w') ->
          store w' = store w).
Proof.
  split; [reflexivity|]. split.
  - eexists. split; reflexivity.
  - intro H.
    specialize (H [traceA; traceC] (mkWorld 0 []) StorageFailure (snd refusedRun)
                  eq_refl).
    discriminate H.
Qed.

Lemma C1_no_rollback_witness :
  exists gdone gfail grest done failed s1,
    groupEvents lexCompare [traceA; traceC] = gdone ++ gfail :: grest
    /\ Forall2 (fun g ep => assembledFrom lexCompare demoId isoTime (list Episode) (snd g) ep)
               gdone done
    /\ assembledFrom lexCompare demoId isoTime (list Episode) (snd gfail) failed
    /\ Saved (list Episode) (boundedSave 1) [] done s1
    /\ boundedSave 1 failed s1 = (Throw StorageFailure, store (snd refusedRun)).
Proof.
  apply (proj1 (C1_no_rollback lexCompare demoId isoTime (list Episode) (boundedSave 1)
                  [traceA; traceC] (mkWorld 0 []))
           StorageFailure (snd refusedRun)).
  reflexivity.
Defined.

Lemma C2_merge_causes_deployment_witness :
  exists ep w',
    correlate lexCompare demoId isoTime (list Episode) appendSave [deployment; prMerged]
              (mkWorld 0 [])
    = (Normal [ep], w')
    /\ episode_type ep = DeploymentEpisode
    /\ events ep = ["event-1"; "event-2"]
    /\ nodes (graph ep) = ["event-1"; "event-2"]
    /\ edges (graph ep) = [mkEdge "event-1" "event-2" CAUSES].
Proof.
  apply (C2_merge_causes_deployment lexCompare demoId isoTime (list Episode) appendSave
           prMerged deployment [deployment; prMerged] (mkWorld 0 [])).
  - reflexivity.
  - reflexivity.
  - reflexivity.
  - reflexivity.
  - reflexivity.
  - reflexivity.
  - right. reflexivity.
  - exact appendSave_acks.
Defined.

Lemma C3_two_traces_two_groups_witness :
  exists kAB kC gAB,
    groupEvents lexCompare [traceA; traceB; traceC] = [(kAB, gAB); (kC, [traceC])]
    /\ Permutation gAB [traceA; traceB]
    /\ ((forall ep s, exists s', appendSave ep s = (Normal tt, s')) ->
        exists ep1 ep2 w',
          correlate lexCompare demoId isoTime (list Episode) appendSave
                    [traceA; traceB; traceC] (mkWorld 0 [])
          = (Normal [ep1; ep2], w')
          /\ Permutation (events ep1) [event_id traceA; event_id traceB]
          /\ events ep2 = [event_id traceC]).
Proof.
  apply (C3_two_traces_two_groups lexCompare demoId isoTime (list Episode) appendSave
           traceA traceB traceC "X" "Y" (mkWorld 0 [])).
  - reflexivity.
  - reflexivity.
  - reflexivity.
  - discriminate.
  - discriminate.
  - intros k [<-|[]]. split; cbn; intuition discriminate.
Defined.

Lemma C5_graph_nodes_witness :
  exists ep w',
    correlate lexCompare demoId isoTime (list Episode) appendSave [deployment; prMerged]
              (mkWorld 0 [])
    = (Normal [ep], w')
    /\ nodes (graph ep) = events ep
    /\ incl (nodes (graph ep)) ["event-2"; "event-1"]
    /\ (forall edge, In edge (edges (graph ep)) ->
          In (edge_from edge) (nodes (graph ep))
          /\ In (edge_to edge) (nodes (graph ep)))
    /\ NoDup (nodes (graph ep)).
Proof.
  eexists. eexists. split; [vm_compute; reflexivity|].
  match goal with
  | |- nodes (graph ?ep) = _ /\ _ =>
      destruct (C5_graph_nodes lexCompare demoId isoTime (list Episode) appendSave
                  [deployment; prMerged] (mkWorld 0 []) _ [ep] eq_refl ep
                  (or_introl eq_refl))
        as (H1 & H2 & H3 & H4)
  end.
  split; [exact H1|]. split; [exact H2|]. split; [exact H3|].
  apply H4. repeat constructor; cbn; intuition discriminate.
Defined.

Lemma C9_primary_actor_and_target_witness :
  exists ep w',
    createEpisode lexCompare demoId isoTime unit aliceBobTie CustomEpisode (mkWorld 0 tt)
    = (Normal ep, w')
    /\ mostFrequentFirst (fun e => actor_id (actor e)) actor aliceBobTie
                         (primary_actor ep)
    /\ mostFrequentFirst (fun e => target_id (target e)) target aliceBobTie
                         (primary_target ep).
Proof.
  apply (C9_primary_actor_and_target lexCompare demoId isoTime unit aliceBobTie
           CustomEpisode (mkWorld 0 tt)).
  discriminate.
Defined.

(** The most frequent actor wins; in a tie the one met first does. *)
Example primary_actor_examples :
  mostCommon (actorCounts bobMostly) = Some bob
  /\ mostCommon (targetCounts bobMostly) = Some db
  /\ mostCommon (actorCounts aliceBobTie) = Some alice
  /\ mostCommon (targetCounts aliceBobTie) = Some db.
Proof. repeat split. Qed.

(* ================================================================== *)
(** ** Further properties of the engine                                *)
(* ================================================================== *)

(** *** Shape of the correlation keys *)

Lemma getCorrelationKeys_shape (event : NormalizedEvent) :
  (List.length (getCorrelationKeys event) <= 5)%nat
  /\ NoDup (getCorrelationKeys event)
  /\ (forall k, In k (getCorrelationKeys event) ->
        k <> EmptyString /\ startsWith k "event:" = false).
Proof.
  rewrite getCorrelationKeys_slots.
  unfold keysOmittingEmpty, keySlots; cbn [flat_map fst snd].
  destruct (corr deployment_id event) as [d|], (corr pr_number event) as [p|],
           (corr commit_sha event) as [c|], (corr trace_id event) as [t|],
           (corr ticket_id event) as [k|];
    repeat match goal with
           | |- context [String.eqb ?s EmptyString] =>
               destruct (String.eqb s EmptyString)
           end;
    cbn [List.app List.length];
    (split; [lia|]);
    (split;
     [ repeat (constructor; [cbn; intuition discriminate|]); constructor
     | intros x Hx; cbn in Hx;
       repeat (destruct Hx as [<-|Hx];
               [split; [cbn; discriminate|reflexivity]|]);
       contradiction ]).
Qed.

(** X1: an event has at most five correlation keys, they are pairwise
    distinct, none is empty and none begins with [event:], the prefix of
    the fallback group key. *)
Theorem keys_shape (event : NormalizedEvent) :
  (List.length (getCorrelationKeys event) <= 5)%nat
  /\ NoDup (getCorrelationKeys event)
  /\ (forall k, In k (getCorrelationKeys event) ->
        k <> EmptyString /\ startsWith k "event:" = false).
Proof. exact (getCorrelationKeys_shape event). Qed.

Lemma key_not_fallback (event : NormalizedEvent) (k id : string) :
  In k (getCorrelationKeys event) -> k <> ("event:" ++ id)%string.
Proof.
  intros Hk ->. destruct (getCorrelationKeys_shape event) as (_ & _ & H).
  destruct (H _ Hk) as [_ Hp]. cbn in Hp.
  destruct id as [|c id']; cbn in Hp; discriminate Hp.
Qed.

(** *** The seed groups have distinct keys *)

Lemma Map_has_In {V : Type} (m : JsMap V) (k : string) :
  Map_has m k = true <-> In k (map fst m).
Proof.
  induction m as [|[k' v] r IH]; cbn; [split; [discriminate|contradiction]|].
  rewrite orb_true_iff, IH, String.eqb_eq. tauto.
Qed.

Lemma Map_has_not_In {V : Type} (m : JsMap V) (k : string) :
  Map_has m k = false <-> ~ In k (map fst m).
Proof.
  rewrite <- Map_has_In. destruct (Map_has m k); intuition congruence.
Qed.

Lemma Map_push_keys {V : Type} (m : JsMap (list V)) (k : string) (x : V) :
  map fst (Map_push m k x) = map fst m.
Proof.
  induction m as [|[k' xs] r IH]; cbn; [reflexivity|].
  destruct (String.eqb k' k); cbn; [reflexivity|now rewrite IH].
Qed.

Lemma NoDup_snoc {T : Type} (l : list T) (x : T) :
  NoDup l -> ~ In x l -> NoDup (l ++ [x]).
Proof.
  intros N Hx. apply NoDup_app; [exact N|repeat constructor; intros []|].
  intros a Ha [<-|[]]. contradiction.
Qed.

Lemma groupStep_keys_NoDup (groups : Groups) (event : NormalizedEvent) :
  NoDup (map fst groups) -> NoDup (map fst (groupStep groups event)).
Proof.
  intro N. unfold groupStep.
  set (groupKey := match scanKeys _ _ _ with Some _ => _ | None => _ end).
  rewrite Map_push_keys.
  destruct (Map_has groups groupKey) eqn:E; [exact N|].
  rewrite (Map_set_absent _ _ _ E), map_app. cbn.
  apply NoDup_snoc; [exact N|]. now apply Map_has_not_In.
Qed.

Lemma seedGroups_keys_NoDup (evs : list NormalizedEvent) :
  NoDup (map fst (seedGroups evs)).
Proof.
  unfold seedGroups.
  enough (H : forall groups, NoDup (map fst groups) ->
                             NoDup (map fst (fold_left groupStep evs groups)))
    by (apply H; constructor).
  induction evs as [|e r IH]; intros groups N; cbn [fold_left]; [exact N|].
  apply IH. now apply groupStep_keys_NoDup.
Qed.

(** *** The merge pass moves every seed group into exactly one group *)

Lemma Set_add_In (s : list string) (k x : string) :
  In x (Set_add s k) <-> In x s \/ x = k.
Proof.
  unfold Set_add. destruct (Set_has s k) eqn:E.
  - apply Set_has_In in E. split; [auto|]. intros [H| ->]; assumption.
  - rewrite in_app_iff. cbn. intuition congruence.
Qed.

Lemma Set_add_all_In (l s : list string) (x : string) :
  In x (fold_left Set_add l s) <-> In x s \/ In x l.
Proof.
  revert s. induction l as [|k r IH]; intro s; cbn [fold_left].
  - cbn. tauto.
  - rewrite IH, Set_add_In. cbn. intuition congruence.
Qed.

Lemma filter_disjoint_perm {T : Type} (p q : T -> bool) (l : list T) :
  (forall x, In x l -> p x = true -> q x = false) ->
  Permutation (filter (fun x => p x || q x) l) (filter p l ++ filter q l).
Proof.
  induction l as [|x r IH]; intro H; cbn; [constructor|].
  assert (IH' := IH (fun y Hy => H y (or_intror Hy))).
  destruct (p x) eqn:Ep; cbn.
  - rewrite (H x (or_introl eq_refl) Ep). now constructor.
  - destruct (q x); [|exact IH'].
    rewrite IH'. apply Permutation_middle.
Qed.

Lemma unique_key_entry {V : Type} (l : JsMap V) (g g' : string * V) :
  NoDup (map fst l) -> In g l -> In g' l -> fst g = fst g' -> g = g'.
Proof.
  induction l as [|x r IH]; cbn; intros N Hg Hg' E; [contradiction|].
  apply NoDup_cons_iff in N as [Nx Nr].
  destruct Hg as [<-|Hg], Hg' as [<-|Hg']; auto.
  - exfalso. apply Nx. rewrite E. now apply in_map.
  - exfalso. apply Nx. rewrite <- E. now apply in_map.
Qed.

Lemma filter_key_entry {V : Type} (l : JsMap V) (k : string) (v : V) :
  NoDup (map fst l) -> In (k, v) l ->
  filter (fun g => String.eqb (fst g) k) l = [(k, v)].
Proof.
  induction l as [|[k' v'] r IH]; cbn; intros N H; [contradiction|].
  apply NoDup_cons_iff in N as [Nx Nr].
  destruct (String.eqb_spec k' k) as [->|Hne].
  - destruct H as [[= ->]|H].
    + f_equal. clear IH. induction r as [|[k2 v2] r IHr]; [reflexivity|]. cbn.
      destruct (String.eqb_spec k2 k) as [->|_].
      * exfalso. apply Nx. now left.
      * apply IHr.
        -- intro X. apply Nx. now right.
        -- now apply NoDup_cons_iff in Nr as [_ ?].
    + exfalso. apply Nx. apply in_map_iff. now exists (k, v).
  - destruct H as [[= -> _]|H]; [contradiction|]. now apply IH.
Qed.

(** *** Groups and events of the batch *)

Lemma groups_length_le (l : Groups) :
  (forall g, In g l -> snd g <> []) ->
  (List.length l <= List.length (List.concat (map snd l)))%nat.
Proof.
  induction l as [|[k evs] r IH]; intro H; cbn; [lia|].
  rewrite length_app.
  assert (evs <> []) by (apply (H (k, evs)); now left).
  assert (List.length r <= List.length (List.concat (map snd r)))%nat
    by (apply IH; intros g Hg; apply H; now right).
  destruct evs; [contradiction|cbn; lia].
Qed.

Section Partition.

Variable localeCompare : string -> string -> Z.

Lemma concat_groups_perm (l l' : Groups) :
  Permutation l l' ->
  Permutation (List.concat (map snd l)) (List.concat (map snd l')).
Proof.
  induction 1 as [|x l l' _ IH|x y l|l l' l'' _ IH1 _ IH2]; cbn.
  - constructor.
  - now apply Permutation_app_head.
  - rewrite !app_assoc. apply Permutation_app_tail, Permutation_app_comm.
  - now rewrite IH1.
Qed.

Lemma filter_all {T : Type} (p : T -> bool) (l : list T) :
  (forall x, In x l -> p x = true) -> filter p l = l.
Proof.
  induction l as [|x r IH]; intro H; cbn; [reflexivity|].
  rewrite (H x (or_introl eq_refl)). f_equal. apply IH.
  intros y Hy. apply H. now right.
Qed.

(** The state of the merge loop after the groups [pre] have been visited:
    [merged] holds exactly the events of the groups marked processed. *)
Lemma mergeStep_invariant (groups : Groups) :
  NoDup (map fst groups) ->
  forall l pre merged processed,
    groups = pre ++ l ->
    (forall k, In k (map fst merged) -> In k processed) ->
    NoDup (map fst merged) ->
    Permutation (List.concat (map snd merged))
                (List.concat
                   (map snd (filter (fun g => Set_has processed (fst g)) groups))) ->
    (forall g, In g pre -> In (fst g) processed) ->
    Permutation
      (List.concat
         (map snd (fst (fold_left (mergeStep localeCompare groups) l (merged, processed)))))
      (List.concat (map snd groups))
    /\ NoDup (map fst (fst (fold_left (mergeStep localeCompare groups) l (merged, processed)))).
Proof.
  intros N. induction l as [|[key evs] r IH];
    intros pre merged processed Hg I1 I2 I3 I4; cbn [fold_left].
  - rewrite app_nil_r in Hg. subst pre. cbn [fst]. split; [|exact I2].
    rewrite I3, filter_all; [reflexivity|].
    intros g Hgin. apply Set_has_In. now apply I4.
  - assert (Hg' : groups = (pre ++ [(key, evs)]) ++ r)
      by (rewrite <- app_assoc; exact Hg).
    assert (Hin : In (key, evs) groups)
      by (rewrite Hg; apply in_app_iff; right; now left).
    destruct (Set_has processed key) eqn:Hp.
    + assert (St : mergeStep localeCompare groups (merged, processed) (key, evs)
                   = (merged, processed))
        by (unfold mergeStep; now rewrite Hp).
      rewrite St.
      apply (IH (pre ++ [(key, evs)])); auto.
      intros g Hgin. apply in_app_iff in Hgin as [Hgin|[<-|[]]]; auto.
      now apply Set_has_In.
    + assert (Np : ~ In key processed).
      { intro X. apply Set_has_In in X. congruence. }
      assert (Nm : Map_has merged key = false).
      { apply Map_has_not_In. intro X. apply Np. now apply I1. }
      set (others := relatedOthers groups processed key evs).
      set (members := evs ++ List.concat (map snd others)).
      set (processed' := fold_left Set_add (key :: map fst others) processed).
      assert (St : mergeStep localeCompare groups (merged, processed) (key, evs)
                   = (Map_set merged key (Array_sort (byTime localeCompare) members),
                      processed'))
        by (unfold mergeStep; rewrite Hp; reflexivity).
      rewrite St, (Map_set_absent _ _ _ Nm).
      assert (Hothers : forall g, In g groups ->
                (In (fst g) (map fst others)
                 <-> negb (String.eqb (fst g) key || Set_has processed (fst g))
                     && groupsAreRelated evs (snd g) = true)).
      { intros g Hgin. unfold others, relatedOthers. split.
        - intro X. apply in_map_iff in X as (g' & E & Hg'in).
          apply filter_In in Hg'in as [Hg'in Q].
          now rewrite <- (unique_key_entry groups g' g N Hg'in Hgin E).
        - intro Q. apply in_map. apply filter_In. auto. }
      apply (IH (pre ++ [(key, evs)])); auto.
      * intros k Hk. apply Set_add_all_In. rewrite map_app in Hk.
        apply in_app_iff in Hk as [Hk|[<-|[]]]; [left; auto|right; now left].
      * rewrite map_app. cbn. apply NoDup_snoc; [exact I2|].
        now apply Map_has_not_In.
      * rewrite map_app, concat_app. cbn [map snd List.concat].
        rewrite app_nil_r, Array_sort_perm, I3.
        pose (P := fun g : string * list NormalizedEvent =>
                     Set_has processed (fst g)).
        pose (K := fun g : string * list NormalizedEvent =>
                     String.eqb (fst g) key).
        pose (Q := fun g : string * list NormalizedEvent =>
                     negb (String.eqb (fst g) key || Set_has processed (fst g))
                     && groupsAreRelated evs (snd g)).
        assert (E : filter (fun g => Set_has processed' (fst g)) groups
                    = filter (fun g => P g || (fun g' => K g' || Q g') g) groups).
        { apply filter_ext_in. intros g Hgin. apply eq_true_iff_eq.
          rewrite Set_has_In. unfold processed', P, K, Q.
          rewrite Set_add_all_In. cbn [In].
          rewrite !orb_true_iff, Set_has_In, String.eqb_eq.
          rewrite <- (Hothers g Hgin). intuition congruence. }
        assert (D1 : Permutation
                       (filter (fun g => P g || (fun g' => K g' || Q g') g) groups)
                       (filter P groups
                        ++ filter (fun g' => K g' || Q g') groups)).
        { apply filter_disjoint_perm. intros g _ Pg. unfold P, K, Q in *.
          destruct (String.eqb_spec (fst g) key) as [Ek|_].
          - rewrite Ek in Pg. congruence.
          - rewrite Pg. cbn. reflexivity. }
        assert (D2 : Permutation (filter (fun g' => K g' || Q g') groups)
                                 (filter K groups ++ filter Q groups)).
        { apply filter_disjoint_perm. intros g _ Kg. unfold K, Q in *.
          rewrite Kg. reflexivity. }
        rewrite E, (concat_groups_perm _ _ D1), map_app, concat_app.
        apply Permutation_app_head.
        rewrite (concat_groups_perm _ _ D2), map_app, concat_app.
        unfold K. rewrite (filter_key_entry groups key evs N Hin).
        cbn. rewrite app_nil_r. reflexivity.
      * intros g Hgin. apply Set_add_all_In.
        apply in_app_iff in Hgin as [Hgin|[<-|[]]]; [left; auto|right; now left].
Qed.

Lemma mergeRelatedGroups_partition (groups : Groups) :
  NoDup (map fst groups) ->
  Permutation (List.concat (map snd (mergeRelatedGroups localeCompare groups)))
              (List.concat (map snd groups))
  /\ NoDup (map fst (mergeRelatedGroups localeCompare groups)).
Proof.
  intro N. unfold mergeRelatedGroups.
  apply (mergeStep_invariant groups N groups [] [] []).
  - reflexivity.
  - intros k [].
  - constructor.
  - cbn [map List.concat Set_has existsb].
    assert (E : filter (fun _ : string * list NormalizedEvent => false) groups
                = []).
    { clear. induction groups as [|g r IH]; [reflexivity|exact IH]. }
    rewrite E. constructor.
  - intros g [].
Qed.

Lemma groupEvents_concat (evs : list NormalizedEvent) :
  Permutation (List.concat (map snd (groupEvents localeCompare evs))) evs.
Proof.
  destruct (mergeRelatedGroups_partition (seedGroups evs)
              (seedGroups_keys_NoDup evs)) as [P _].
  unfold groupEvents. rewrite P. apply seedGroups_concat.
Qed.

Lemma groupEvents_keys_NoDup (evs : list NormalizedEvent) :
  NoDup (map fst (groupEvents localeCompare evs)).
Proof.
  exact (proj2 (mergeRelatedGroups_partition (seedGroups evs)
                  (seedGroups_keys_NoDup evs))).
Qed.

(** X2: grouping is a partition of the batch: the groups taken together
    hold every event of the batch exactly as often as the batch does, and
    the group keys are pairwise distinct. *)
Theorem groupEvents_partition (evs : list NormalizedEvent) :
  Permutation (List.concat (map snd (groupEvents localeCompare evs))) evs
  /\ NoDup (map fst (groupEvents localeCompare evs)).
Proof.
  split; [apply groupEvents_concat|apply groupEvents_keys_NoDup].
Qed.

(** X3: every group is non-empty; when the collation is a consistent
    comparator (any two strings comparable, transitive), every group is
    sorted in ascending order of time under the collation. *)
Theorem groupEvents_sorted_nonempty (evs : list NormalizedEvent)
                                    (g : string * list NormalizedEvent) :
  In g (groupEvents localeCompare evs) ->
  snd g <> []
  /\ ((forall x y, localeCompare x y <= 0 \/ localeCompare y x <= 0) ->
      (forall x y z, localeCompare x y <= 0 -> localeCompare y z <= 0 ->
                     localeCompare x z <= 0) ->
      StronglySorted (fun a b => localeCompare (time a) (time b) <= 0) (snd g)).
Proof.
  intro Hg. split; [now apply (groupEvents_nonempty localeCompare evs)|].
  intros Htotal Htrans.
  apply mergeRelatedGroups_entries in Hg as (key & evs0 & processed & _ & ->).
  apply (Array_sort_sorted (byTime localeCompare)).
  - intros x y. apply Htotal.
  - intros x y z. apply Htrans.
Qed.

Lemma groupEvents_length (evs : list NormalizedEvent) :
  (List.length (groupEvents localeCompare evs) <= List.length evs)%nat.
Proof.
  rewrite <- (Permutation_length (groupEvents_concat evs)).
  apply groups_length_le, groupEvents_nonempty.
Qed.

End Partition.

Lemma chainBatch_groups (localeCompare : string -> string -> Z) :
  groupEvents localeCompare chainBatch
  = [("trace:X", Array_sort (byTime localeCompare) [chainA; chainB; chainD]);
     ("deployment:D", Array_sort (byTime localeCompare) [chainF; chainK])].
Proof.
  unfold groupEvents.
  assert (S : seedGroups chainBatch
              = [("trace:X", [chainA]); ("commit:c1", [chainB; chainD]);
                 ("deployment:D", [chainF; chainK])])
    by (vm_compute; reflexivity).
  rewrite S. unfold mergeRelatedGroups. cbn [fold_left].
  assert (R1 : relatedOthers
                 [("trace:X", [chainA]); ("commit:c1", [chainB; chainD]);
                  ("deployment:D", [chainF; chainK])]
                 [] "trace:X" [chainA]
               = [("commit:c1", [chainB; chainD])])
    by (vm_compute; reflexivity).
  assert (R3 : relatedOthers
                 [("trace:X", [chainA]); ("commit:c1", [chainB; chainD]);
                  ("deployment:D", [chainF; chainK])]
                 ["trace:X"; "commit:c1"] "deployment:D" [chainF; chainK]
               = [])
    by (vm_compute; reflexivity).
  unfold mergeStep at 3. cbn [Set_has existsb].
  rewrite R1. cbn [map fst snd List.concat List.app fold_left Map_set].
  change (Set_add (Set_add [] "trace:X") "commit:c1")
    with ["trace:X"; "commit:c1"].
  unfold mergeStep at 2.
  change (Set_has ["trace:X"; "commit:c1"] "commit:c1") with true. cbv iota.
  unfold mergeStep.
  change (Set_has ["trace:X"; "commit:c1"] "deployment:D") with false.
  cbv iota. rewrite R3.
  cbn [map fst snd List.concat List.app fold_left]. rewrite ?app_nil_r.
  reflexivity.
Qed.

Lemma groupEvents_sorted_nonempty_witness :
  StronglySorted (fun a b => lexCompare (time a) (time b) <= 0)
                 (Array_sort (byTime lexCompare) [chainA; chainB; chainD]).
Proof.
  refine (proj2 (groupEvents_sorted_nonempty lexCompare chainBatch
                   ("trace:X",
                    Array_sort (byTime lexCompare) [chainA; chainB; chainD])
                   _)
            lexCompare_total lexCompare_trans).
  rewrite chainBatch_groups. now left.
Defined.

(** *** What [correlate] returns *)

Lemma NoDup_map_injective {T U : Type} (f : T -> U) (l : list T) :
  (forall x y, f x = f y -> x = y) -> NoDup l -> NoDup (map f l).
Proof.
  intros Hf. induction 1 as [|x r Hx _ IH]; cbn; constructor; [|exact IH].
  intro X. apply in_map_iff in X as (y & E & Hy). apply Hf in E. now subst.
Qed.

Section Returned.

Variable localeCompare : string -> string -> Z.
Variable ulid : nat -> string.
Variable Date_getTime : string -> option Z.
Variable Store : Type.
Variable saveEpisode : Episode -> Store -> Completion unit * Store.

(** X4: with a storage that acknowledges every write, [correlate] returns
    for every batch; no group is ever empty, so [createEpisode] never runs
    into its [TypeError]. *)
Theorem correlate_returns (evs : list NormalizedEvent) (w : World Store) :
  (forall ep s, exists s', saveEpisode ep s = (Normal tt, s')) ->
  exists eps w',
    correlate localeCompare ulid Date_getTime Store saveEpisode evs w = (Normal eps, w').
Proof.
  intro Hack.
  destruct (correlateLoop_acked localeCompare ulid Date_getTime Store saveEpisode
              (groupEvents localeCompare evs) Hack (groupEvents_nonempty localeCompare evs) [] w)
    as (eps & w' & L & _).
  exists eps, w'. exact L.
Qed.

(** X5: [correlate] returns one episode per group: never more episodes than
    the batch has events, and none exactly when the batch is empty. *)
Theorem correlate_episode_count (evs : list NormalizedEvent)
                                (w w' : World Store) (eps : list Episode) :
  correlate localeCompare ulid Date_getTime Store saveEpisode evs w = (Normal eps, w') ->
  List.length eps = List.length (groupEvents localeCompare evs)
  /\ (List.length eps <= List.length evs)%nat
  /\ (eps = [] <-> evs = []).
Proof.
  intro H. apply correlateLoop_returns in H as (new & -> & F).
  cbn [List.app]. apply Forall2_length in F.
  pose proof (groupEvents_length localeCompare evs) as Hle.
  split; [now symmetry|]. split; [lia|]. split.
  - intros ->. cbn in F.
    pose proof (groupEvents_concat localeCompare evs) as P.
    destruct (groupEvents localeCompare evs); [|discriminate].
    now apply Permutation_nil in P.
  - intros ->. cbn in F. destruct new; [reflexivity|discriminate].
Qed.

Lemma createEpisode_id (evs : list NormalizedEvent) (type : EpisodeType)
                       (w w1 : World Store) (ep : Episode) :
  createEpisode localeCompare ulid Date_getTime Store evs type w = (Normal ep, w1) ->
  episode_id ep = ulid (next_id w) /\ next_id w1 = S (next_id w).
Proof.
  unfold createEpisode, bind, generateId.
  destruct (Array_sort (byTime localeCompare) evs); cbn; [discriminate|].
  intros [= <- <-]. split; reflexivity.
Qed.

Lemma correlateLoop_ids (groups : Groups) :
  forall acc w eps w',
    correlateLoop localeCompare ulid Date_getTime Store saveEpisode groups acc w
    = (Normal eps, w') ->
    exists new,
      eps = acc ++ new
      /\ map episode_id new
         = map ulid (seq (next_id w) (List.length groups))
      /\ next_id w' = (next_id w + List.length groups)%nat.
Proof.
  induction groups as [|[k evs] rest IH]; intros acc w eps w' H.
  - injection H as <- <-. exists []. rewrite app_nil_r. cbn.
    repeat split. lia.
  - cbn [correlateLoop] in H. unfold bind at 1 in H.
    destruct (createEpisode localeCompare ulid Date_getTime Store evs
                (determineEpisodeType evs) w) as [[ep|e] w1] eqn:C;
      [|discriminate].
    apply createEpisode_id in C as [Eid En].
    unfold bind at 1 in H. unfold storage_saveEpisode in H.
    destruct (saveEpisode ep (store w1)) as [[[]|e] s]; [|discriminate].
    apply IH in H as (new & -> & Hids & Hn). cbn [next_id] in Hids, Hn.
    exists (ep :: new). rewrite <- app_assoc. split; [reflexivity|].
    cbn [map List.length seq]. rewrite Eid, Hids, En. split; [reflexivity|].
    lia.
Qed.

(** X6: the episodes of one call carry the identifiers the generator hands
    out, one after the other, one per episode; when the generator never
    repeats itself, the identifiers of the call are pairwise distinct. *)
Theorem correlate_fresh_ids (evs : list NormalizedEvent) (w w' : World Store)
                            (eps : list Episode) :
  correlate localeCompare ulid Date_getTime Store saveEpisode evs w = (Normal eps, w') ->
  map episode_id eps = map ulid (seq (next_id w) (List.length eps))
  /\ next_id w' = (next_id w + List.length eps)%nat
  /\ ((forall m n, ulid m = ulid n -> m = n) -> NoDup (map episode_id eps)).
Proof.
  intro H.
  assert (Hlen : List.length eps = List.length (groupEvents localeCompare evs)).
  { pose proof H as H'. apply correlateLoop_returns in H' as (new & -> & F).
    symmetry. exact (Forall2_length F). }
  apply correlateLoop_ids in H as (new & -> & Hids & Hn).
  cbn [List.app] in *. rewrite Hlen. split; [exact Hids|].
  split; [exact Hn|].
  intro Hinj. rewrite Hids. apply NoDup_map_injective; [exact Hinj|].
  apply seq_NoDup.
Qed.

End Returned.

Lemma correlate_returns_witness :
  exists eps w',
    correlate lexCompare demoId isoTime (list Episode) appendSave chainBatch
              (mkWorld 0 [])
    = (Normal eps, w').
Proof.
  apply (correlate_returns lexCompare demoId isoTime (list Episode) appendSave
           chainBatch (mkWorld 0 [])).
  apply appendSave_acks.
Defined.

Lemma correlate_episode_count_witness :
  exists eps w',
    correlate lexCompare demoId isoTime (list Episode) appendSave chainBatch
              (mkWorld 0 [])
    = (Normal eps, w')
    /\ List.length eps = List.length (groupEvents lexCompare chainBatch)
    /\ (List.length eps <= List.length chainBatch)%nat
    /\ (eps = [] <-> chainBatch = []).
Proof.
  destruct (correlate lexCompare demoId isoTime (list Episode) appendSave
              chainBatch (mkWorld 0 []))
    as [[eps|e] w'] eqn:R.
  - exists eps, w'. split; [reflexivity|].
    exact (correlate_episode_count lexCompare demoId isoTime (list Episode)
             appendSave chainBatch (mkWorld 0 []) w' eps R).
  - vm_compute in R. discriminate R.
Defined.

Lemma correlate_fresh_ids_witness :
  exists eps w',
    correlate lexCompare demoId isoTime (list Episode) appendSave chainBatch
              (mkWorld 3 [])
    = (Normal eps, w')
    /\ map episode_id eps = map demoId (seq 3 (List.length eps))
    /\ next_id w' = (3 + List.length eps)%nat
    /\ ((forall m n, demoId m = demoId n -> m = n)
        -> NoDup (map episode_id eps)).
Proof.
  destruct (correlate lexCompare demoId isoTime (list Episode) appendSave
              chainBatch (mkWorld 3 []))
    as [[eps|e] w'] eqn:R.
  - exists eps, w'. split; [reflexivity|].
    exact (correlate_fresh_ids lexCompare demoId isoTime (list Episode)
             appendSave chainBatch (mkWorld 3 []) w' eps R).
  - vm_compute in R. discriminate R.
Defined.

(** *** Running the engine again *)

Lemma assembledFrom_fields (localeCompare : string -> string -> Z)
                           (ulid : nat -> string)
                           (Date_getTime : string -> option Z) (Store : Type)
                           (evs : list NormalizedEvent) (ep : Episode) :
  assembledFrom localeCompare ulid Date_getTime Store evs ep ->
  exists first rest id,
    Array_sort (byTime localeCompare) evs = first :: rest
    /\ ep = mkEpisode id (determineEpisodeType evs) (time first)
              (time (last (first :: rest) first))
              (mostCommon (actorCounts evs)) (mostCommon (targetCounts evs))
              (map event_id (first :: rest))
              (buildCausalGraph Date_getTime (first :: rest)).
Proof.
  intros (w0 & w1 & C).
  pose proof C as C'. apply createEpisode_inv in C' as (Hne & _).
  destruct (createEpisode_nonempty localeCompare ulid Date_getTime Store evs
              (determineEpisodeType evs) w0 Hne) as (first & rest & E & C2).
  rewrite C2 in C. injection C as <- _.
  exists first, rest, (ulid (next_id w0)). split; [exact E|reflexivity].
Qed.

(** X7: the content of the episodes depends on the batch alone.  Two runs of
    [correlate] over the same batch, whatever the storage, its state and the
    identifier generator, return episodes that agree in everything but
    their identifiers. *)
Theorem correlate_same_content
    (localeCompare : string -> string -> Z)
    (Date_getTime : string -> option Z)
    (ulid1 ulid2 : nat -> string) (Store1 Store2 : Type)
    (save1 : Episode -> Store1 -> Completion unit * Store1)
    (save2 : Episode -> Store2 -> Completion unit * Store2)
    (evs : list NormalizedEvent)
    (w1 w1' : World Store1) (w2 w2' : World Store2)
    (eps1 eps2 : list Episode) :
  correlate localeCompare ulid1 Date_getTime Store1 save1 evs w1 = (Normal eps1, w1') ->
  correlate localeCompare ulid2 Date_getTime Store2 save2 evs w2 = (Normal eps2, w2') ->
  Forall2 sameExceptId eps1 eps2.
Proof.
  intros H1 H2.
  apply correlateLoop_returns in H1 as (new1 & -> & F1).
  apply correlateLoop_returns in H2 as (new2 & -> & F2).
  cbn [List.app]. revert new2 F2.
  induction F1 as [|g p gs ps Hp _ IH]; intros new2 F2;
    inversion F2 as [|g' q gs' qs Hq F2' E1 E2]; subst; constructor.
  - apply assembledFrom_fields in Hp as (f1 & r1 & i1 & S1 & ->).
    apply assembledFrom_fields in Hq as (f2 & r2 & i2 & S2 & ->).
    rewrite S1 in S2. injection S2 as <- <-.
    repeat split.
  - now apply IH.
Qed.

Lemma correlate_same_content_witness :
  Forall2 sameExceptId
    (match fst (correlate lexCompare demoId isoTime (list Episode) appendSave chainBatch
                  (mkWorld 0 []))
     with Normal eps => eps | Throw _ => [] end)
    (match fst (correlate lexCompare otherId isoTime unit (fun _ s => (Normal tt, s))
                  chainBatch (mkWorld 7 tt))
     with Normal eps => eps | Throw _ => [] end).
Proof.
  apply (correlate_same_content lexCompare isoTime demoId otherId (list Episode) unit
           appendSave (fun _ s => (Normal tt, s)) chainBatch
           (mkWorld 0 [])
           (snd (correlate lexCompare demoId isoTime (list Episode) appendSave chainBatch
                   (mkWorld 0 [])))
           (mkWorld 7 tt)
           (snd (correlate lexCompare otherId isoTime unit (fun _ s => (Normal tt, s))
                   chainBatch (mkWorld 7 tt)))).
  - vm_compute. reflexivity.
  - vm_compute. reflexivity.
Defined.

Section RecomputeFacts.

Variable localeCompare : string -> string -> Z.
Variable ulid : nat -> string.
Variable Date_getTime : string -> option Z.
Variable Store : Type.
Variable saveEpisode : Episode -> Store -> Completion unit * Store.
Variable queryEvents :
  EventQuery -> Store -> Completion (list NormalizedEvent) * Store.

(** X8: [recompute] asks the storage for the events of the range with the
    limit 10000 and correlates what it gets.  A failing query fails the
    call before any identifier is drawn or any episode saved; with a
    storage that honours the limit, the call returns at most 10000
    episodes. *)
Theorem recompute_bounded (query : option TimeRange) (w : World Store) :
  let filter := mkEventQuery (range startTime query) (range endTime query)
                             (Some 10000) in
  (forall e s,
     queryEvents filter (store w) = (Throw e, s) ->
     recompute localeCompare ulid Date_getTime Store saveEpisode queryEvents query w
     = (Throw e, mkWorld (next_id w) s))
  /\ (forall evs s,
        queryEvents filter (store w) = (Normal evs, s) ->
        recompute localeCompare ulid Date_getTime Store saveEpisode queryEvents query w
        = correlate localeCompare ulid Date_getTime Store saveEpisode evs
                    (mkWorld (next_id w) s))
  /\ ((forall evs s,
         queryEvents filter (store w) = (Normal evs, s) ->
         Z.of_nat (List.length evs) <= 10000) ->
      forall eps w',
        recompute localeCompare ulid Date_getTime Store saveEpisode queryEvents query w
        = (Normal eps, w') ->
        Z.of_nat (List.length eps) <= 10000).
Proof.
  intro filter. subst filter.
  unfold recompute, bind, storage_queryEvents. repeat split.
  - intros e s Q. rewrite Q. reflexivity.
  - intros evs s Q. rewrite Q. reflexivity.
  - intros Hlimit eps w' H.
    destruct (queryEvents _ (store w)) as [[evs|e] s] eqn:Q; [|discriminate].
    specialize (Hlimit _ _ eq_refl).
    assert (Hlen : (List.length eps <= List.length evs)%nat).
    { pose proof H as H'. apply correlateLoop_returns in H' as (new & -> & F).
      cbn [List.app]. rewrite <- (Forall2_length F). apply groupEvents_length. }
    lia.
Qed.

End RecomputeFacts.

Lemma recompute_bounded_witness :
  Z.of_nat
    (List.length
       (match fst (recompute lexCompare demoId isoTime (list Episode)
                     appendSave (memoryQuery chainBatch) None (mkWorld 0 []))
        with Normal eps => eps | Throw _ => [] end))
  <= 10000.
Proof.
  destruct (recompute lexCompare demoId isoTime (list Episode) appendSave
              (memoryQuery chainBatch) None (mkWorld 0 []))
    as [[eps|e] w'] eqn:R; cbn [fst].
  - refine (proj2 (proj2 (recompute_bounded lexCompare demoId isoTime
                            (list Episode) appendSave (memoryQuery chainBatch)
                            None (mkWorld 0 [])))
              _ eps w' R).
    intros evs s H. unfold memoryQuery in H. cbn [query_limit] in H.
    injection H as <- _. cbn [List.length]. lia.
  - cbn. lia.
Defined.

(** *** The causal graph *)

Lemma StronglySorted_later {T : Type} (R : T -> T -> Prop)
                           (pre mid post : list T) (a b : T) :
  StronglySorted R (pre ++ a :: mid ++ b :: post) -> R a b.
Proof.
  induction pre as [|x pre IH]; cbn; intro S.
  - apply StronglySorted_inv in S as [_ F].
    rewrite Forall_forall in F. apply F. apply in_app_iff. right. now left.
  - apply StronglySorted_inv in S as [S _]. now apply IH.
Qed.

Section Graph.

Variable Date_getTime : string -> option Z.

Lemma edgesFrom_In (event : NormalizedEvent)
                   (laterEvents : list NormalizedEvent) (edge : GraphEdge) :
  In edge (edgesFrom Date_getTime event laterEvents)
  <-> exists mid b post r,
        laterEvents = mid ++ b :: post
        /\ inferRelationship Date_getTime event b = Some r
        /\ edge = mkEdge (event_id event) (event_id b) r.
Proof.
  induction laterEvents as [|l rest IH]; cbn [edgesFrom].
  - split; [intros []|]. intros (mid & b & post & r & E & _).
    destruct mid; discriminate E.
  - split.
    + intro H.
      assert (C : (exists r, inferRelationship Date_getTime event l = Some r
                             /\ edge = mkEdge (event_id event) (event_id l) r)
                  \/ In edge (edgesFrom Date_getTime event rest)).
      { destruct (inferRelationship Date_getTime event l) as [r|];
          [destruct H as [<-|H]; [left; eauto|now right]|now right]. }
      destruct C as [(r & I & ->)|C].
      * exists [], l, rest, r. auto.
      * apply IH in C as (mid & b & post & r & -> & I & ->).
        exists (l :: mid), b, post, r. auto.
    + intros (mid & b & post & r & E & I & ->).
      destruct mid as [|m mid]; cbn in E; injection E as -> ->.
      * rewrite I. now left.
      * assert (X : In (mkEdge (event_id event) (event_id b) r)
                       (edgesFrom Date_getTime event (mid ++ b :: post)))
          by (apply IH; eauto 8).
        destruct (inferRelationship Date_getTime event m); [now right|exact X].
Qed.

Lemma allEdges_In (evs : list NormalizedEvent) (edge : GraphEdge) :
  In edge (allEdges Date_getTime evs)
  <-> exists pre a mid b post r,
        evs = pre ++ a :: mid ++ b :: post
        /\ inferRelationship Date_getTime a b = Some r
        /\ edge = mkEdge (event_id a) (event_id b) r.
Proof.
  induction evs as [|e rest IH]; cbn [allEdges].
  - split; [intros []|]. intros (pre & a & mid & b & post & r & E & _).
    destruct pre; discriminate E.
  - rewrite in_app_iff, edgesFrom_In, IH. split.
    + intros [(mid & b & post & r & -> & I & ->)
             |(pre & a & mid & b & post & r & -> & I & ->)].
      * exists [], e, mid, b, post, r. auto.
      * exists (e :: pre), a, mid, b, post, r. auto.
    + intros (pre & a & mid & b & post & r & E & I & ->).
      destruct pre as [|p pre]; cbn in E; injection E as -> ->.
      * left. eauto 8.
      * right. eauto 10.
Qed.

Lemma edgesFrom_length (event : NormalizedEvent)
                       (laterEvents : list NormalizedEvent) :
  (List.length (edgesFrom Date_getTime event laterEvents)
   <= List.length laterEvents)%nat.
Proof.
  induction laterEvents as [|l r IH]; cbn; [lia|].
  destruct (inferRelationship Date_getTime event l); cbn; lia.
Qed.

Lemma allEdges_length (evs : list NormalizedEvent) :
  (2 * List.length (allEdges Date_getTime evs)
   <= List.length evs * (List.length evs - 1))%nat.
Proof.
  induction evs as [|e r IH]; cbn [allEdges List.length]; [lia|].
  rewrite length_app. pose proof (edgesFrom_length e r). nia.
Qed.

(** X9: the graph has an edge exactly for the pairs of events, the first
    standing before the second in the list, to which [inferRelationship]
    gives a relationship: the edge runs from the earlier to the later event
    and carries that relationship.  A list of n events has at most
    n(n-1)/2 edges, a single event none. *)
Theorem buildCausalGraph_edges (evs : list NormalizedEvent) :
  (forall edge,
     In edge (edges (buildCausalGraph Date_getTime evs))
     <-> exists pre a mid b post r,
           evs = pre ++ a :: mid ++ b :: post
           /\ inferRelationship Date_getTime a b = Some r
           /\ edge = mkEdge (event_id a) (event_id b) r)
  /\ (2 * List.length (edges (buildCausalGraph Date_getTime evs))
      <= List.length evs * (List.length evs - 1))%nat.
Proof.
  split; [intro edge; apply allEdges_In|apply allEdges_length].
Qed.

(** X10: what each relationship says about the pair it is given to.  CAUSES
    joins a PR_MERGED to a DEPLOYMENT of the same commit; TRIGGERS ends at a
    TRACE and starts at a FEATURE_FLAG or at a DEPLOYMENT with the same
    deployment id; RELATES_TO needs a shared non-empty trace or deployment
    id; FOLLOWS needs two PR_ events of the same PR number, or the same
    target less than five minutes later; no relationship means a different
    target, an unreadable time, or five minutes or more. *)
Theorem inferRelationship_sound (earlier later : NormalizedEvent) :
  match inferRelationship Date_getTime earlier later with
  | Some CAUSES =>
      kind earlier = PR_MERGED /\ kind later = DEPLOYMENT
      /\ corr commit_sha earlier = corr commit_sha later
  | Some TRIGGERS =>
      kind later = TRACE
      /\ (kind earlier = FEATURE_FLAG
          \/ (kind earlier = DEPLOYMENT
              /\ corr deployment_id earlier = corr deployment_id later))
  | Some RELATES_TO =>
      (exists s, s <> EmptyString /\ corr trace_id earlier = Some s
                 /\ corr trace_id later = Some s)
      \/ (exists s, s <> EmptyString /\ corr deployment_id earlier = Some s
                    /\ corr deployment_id later = Some s)
  | Some FOLLOWS =>
      (startsWith (kind_name (kind earlier)) "PR_" = true
       /\ startsWith (kind_name (kind later)) "PR_" = true
       /\ corr pr_number earlier = corr pr_number later)
      \/ (target_id (target earlier) = target_id (target later)
          /\ exists ms, timeDiff Date_getTime earlier later = Some ms
                        /\ ms < 5 * 60 * 1000)
  | None =>
      target_id (target earlier) <> target_id (target later)
      \/ timeDiff Date_getTime earlier later = None
      \/ exists ms, timeDiff Date_getTime earlier later = Some ms
                    /\ 5 * 60 * 1000 <= ms
  end.
Proof.
  unfold inferRelationship.
  destruct (rule1 earlier later) eqn:R1.
  { unfold rule1 in R1. apply andb_true_iff in R1 as [R1 C].
    apply andb_true_iff in R1 as [K1 K2].
    apply EventKind_eqb_eq in K1, K2. apply strict_eq_true in C. auto. }
  destruct (rule2 earlier later) eqn:R2.
  { unfold rule2 in R2. apply andb_true_iff in R2 as [R2 C].
    apply andb_true_iff in R2 as [K1 K2].
    apply EventKind_eqb_eq in K1, K2. apply strict_eq_true in C. auto. }
  destruct (rule3 earlier later) eqn:R3.
  { unfold rule3 in R3. apply andb_true_iff in R3 as [K1 K2].
    apply EventKind_eqb_eq in K1, K2. auto. }
  destruct (rule4 earlier later) eqn:R4.
  { unfold rule4 in R4. apply andb_true_iff in R4 as [R4 C].
    apply andb_true_iff in R4 as [K1 K2]. apply strict_eq_true in C. auto. }
  destruct (rule5 earlier later) eqn:R5.
  { unfold rule5 in R5. apply andb_true_iff in R5 as [T C].
    apply truthy_true in T as (s & Hs & Hne). apply strict_eq_true in C.
    left. exists s. rewrite <- C. auto. }
  destruct (rule6 earlier later) eqn:R6.
  { unfold rule6 in R6. apply andb_true_iff in R6 as [T C].
    apply truthy_true in T as (s & Hs & Hne). apply strict_eq_true in C.
    right. exists s. rewrite <- C. auto. }
  destruct (rule7 Date_getTime earlier later) eqn:R7; unfold rule7 in R7.
  - apply andb_true_iff in R7 as [W T]. apply String.eqb_eq in T.
    right. split; [exact T|].
    destruct (timeDiff Date_getTime earlier later) as [ms|]; [|discriminate].
    exists ms. split; [reflexivity|]. unfold withinFiveMinutes in W.
    now apply Z.ltb_lt.
  - apply andb_false_iff in R7 as [W|T].
    + right. destruct (timeDiff Date_getTime earlier later) as [ms|];
        [right|now left].
      exists ms. split; [reflexivity|]. unfold withinFiveMinutes in W.
      now apply Z.ltb_ge.
    + left. now apply String.eqb_neq.
Qed.

End Graph.

Section GraphOfEpisode.

Variable localeCompare : string -> string -> Z.
Variable ulid : nat -> string.
Variable Date_getTime : string -> option Z.
Variable Store : Type.

(** X11: a FEATURE_FLAG event followed by a TRACE event always gets the
    relationship TRIGGERS, whatever their correlation fields, targets and
    times. *)
Theorem flag_triggers_trace (earlier later : NormalizedEvent) :
  kind earlier = FEATURE_FLAG -> kind later = TRACE ->
  inferRelationship Date_getTime earlier later = Some TRIGGERS.
Proof.
  intros K1 K2. unfold inferRelationship, rule1, rule2, rule3.
  rewrite K1, K2. reflexivity.
Qed.

(** X12: in an assembled episode every edge joins two events of the group
    and carries the relationship [inferRelationship] gives to that pair;
    when the collation is a consistent comparator, the edge runs from the
    event whose time sorts first to the one whose time sorts later (equal
    rank allowed). *)
Theorem episode_edges_forward (evs : list NormalizedEvent) (type : EpisodeType)
                              (w w' : World Store) (ep : Episode) :
  createEpisode localeCompare ulid Date_getTime Store evs type w
  = (Normal ep, w') ->
  forall edge, In edge (edges (graph ep)) ->
    exists a b,
      In a evs /\ In b evs
      /\ edge_from edge = event_id a /\ edge_to edge = event_id b
      /\ inferRelationship Date_getTime a b = Some (edge_type edge)
      /\ ((forall x y, localeCompare x y <= 0 \/ localeCompare y x <= 0) ->
          (forall x y z, localeCompare x y <= 0 -> localeCompare y z <= 0 ->
                         localeCompare x z <= 0) ->
          localeCompare (time a) (time b) <= 0).
Proof.
  intros C edge He.
  apply createEpisode_inv in C as (_ & _ & _ & Hgr & _).
  rewrite Hgr in He. cbn [edges buildCausalGraph] in He.
  apply allEdges_In in He as (pre & a & mid & b & post & r & E & I & ->).
  pose proof (Array_sort_perm (byTime localeCompare) evs) as P.
  rewrite E in P.
  exists a, b. cbn [edge_from edge_to edge_type].
  split; [apply (Permutation_in _ P), in_app_iff; right; now left|].
  split.
  { apply (Permutation_in _ P), in_app_iff. right. right.
    apply in_app_iff. right. now left. }
  repeat split; [exact I|].
  intros Htotal Htrans.
  assert (S : StronglySorted (fun x y => byTime localeCompare x y <= 0)
                             (Array_sort (byTime localeCompare) evs)).
  { apply (Array_sort_sorted (byTime localeCompare)).
    - intros x y. apply Htotal.
    - intros x y z. apply Htrans. }
  rewrite E in S.
  exact (StronglySorted_later _ _ _ _ _ _ S).
Qed.

End GraphOfEpisode.

Lemma episode_edges_forward_witness :
  exists a b,
    In a [deployment; prMerged] /\ In b [deployment; prMerged]
    /\ "event-1" = event_id a /\ "event-2" = event_id b
    /\ inferRelationship isoTime a b = Some CAUSES
    /\ ((forall x y, lexCompare x y <= 0 \/ lexCompare y x <= 0) ->
        (forall x y z, lexCompare x y <= 0 -> lexCompare y z <= 0 ->
                       lexCompare x z <= 0) ->
        lexCompare (time a) (time b) <= 0).
Proof.
  destruct (createEpisode lexCompare demoId isoTime unit [deployment; prMerged]
              DeploymentEpisode (mkWorld 0 tt))
    as [[ep|e] w'] eqn:C.
  - apply (episode_edges_forward lexCompare demoId isoTime unit
             [deployment; prMerged] DeploymentEpisode (mkWorld 0 tt) w' ep C
             (mkEdge "event-1" "event-2" CAUSES)).
    vm_compute in C. injection C as <- _. left. reflexivity.
  - vm_compute in C. discriminate C.
Defined.

(** *** The episode type depends on the kinds only *)

Lemma kinds_has_ext (l1 l2 : list EventKind) (k : EventKind) :
  (forall x, In x l1 <-> In x l2) -> kinds_has l1 k = kinds_has l2 k.
Proof.
  intro H. apply eq_true_iff_eq. unfold kinds_has.
  rewrite !existsb_exists. split; intros (x & Hx & E); exists x;
    (split; [now apply H|exact E]).
Qed.

(** X13: the episode type depends only on which kinds occur in the group,
    not on their order or number. *)
Theorem determineEpisodeType_kinds (evs1 evs2 : list NormalizedEvent) :
  (forall k, In k (map kind evs1) <-> In k (map kind evs2)) ->
  determineEpisodeType evs1 = determineEpisodeType evs2.
Proof.
  intro H. unfold determineEpisodeType.
  now rewrite !(kinds_has_ext _ _ _ H).
Qed.

Lemma determineEpisodeType_kinds_witness :
  determineEpisodeType [grantEvent; deployEvent; grantEvent]
  = determineEpisodeType [deployEvent; grantEvent].
Proof.
  apply determineEpisodeType_kinds.
  intro k. cbn. tauto.
Defined.

Lemma flag_triggers_trace_witness :
  inferRelationship isoTime flagEvent bareTrace = Some TRIGGERS.
Proof.
  apply flag_triggers_trace; reflexivity.
Defined.

(** *** When two events are grouped *)

Lemma groupStep_nil (event : NormalizedEvent) :
  groupStep [] event
  = [(fallbackKey (getCorrelationKeys event) event, [event])].
Proof.
  unfold groupStep. rewrite scanKeys_miss by (intros ? ? ? _ []).
  cbn. rewrite String.eqb_refl. reflexivity.
Qed.

Lemma groupStep_unrelated (gk : string) (evs : list NormalizedEvent)
                          (event : NormalizedEvent) :
  (forall key ev, In key (getCorrelationKeys event) -> In ev evs ->
                  ~ In key (getCorrelationKeys ev)) ->
  groupStep [(gk, evs)] event
  = if String.eqb gk (fallbackKey (getCorrelationKeys event) event)
    then [(gk, evs ++ [event])]
    else [(gk, evs); (fallbackKey (getCorrelationKeys event) event, [event])].
Proof.
  intro Hapart. unfold groupStep. rewrite scanKeys_miss.
  - cbn. destruct (String.eqb gk _) eqn:E; cbn; rewrite E.
    + reflexivity.
    + rewrite String.eqb_refl. reflexivity.
  - intros key g ev Hk [<-|[]] Hev. cbn in Hev. now apply Hapart.
Qed.

Lemma fallbackKey_keyless (event : NormalizedEvent) :
  getCorrelationKeys event = [] ->
  fallbackKey (getCorrelationKeys event) event
  = ("event:" ++ event_id event)%string.
Proof. intros ->. reflexivity. Qed.

Lemma fallbackKey_cases (event : NormalizedEvent) :
  (getCorrelationKeys event = []
   /\ fallbackKey (getCorrelationKeys event) event
      = ("event:" ++ event_id event)%string)
  \/ (In (fallbackKey (getCorrelationKeys event) event)
         (getCorrelationKeys event)).
Proof.
  destruct (getCorrelationKeys event) as [|k rest] eqn:E.
  - left. split; [reflexivity|]. rewrite <- E. now apply fallbackKey_keyless.
  - right. rewrite <- E, (fallbackKey_head event k rest E), E. now left.
Qed.

Lemma fallback_prefix_injective (x y : string) :
  ("event:" ++ x)%string = ("event:" ++ y)%string -> x = y.
Proof. cbn. intros [= H]. exact H. Qed.

Section Pairs.

Variable localeCompare : string -> string -> Z.

(** X14: in a batch of two events, the two land in one group exactly when
    they share a correlation key, or have no key at all and the same id;
    otherwise each is a group of its own. *)
Theorem pair_grouping (a b : NormalizedEvent) :
  let together :=
    (exists k, In k (getCorrelationKeys a) /\ In k (getCorrelationKeys b))
    \/ (getCorrelationKeys a = [] /\ getCorrelationKeys b = []
        /\ event_id a = event_id b) in
  (together ->
   exists k, groupEvents localeCompare [a; b] = [(k, Array_sort (byTime localeCompare) [a; b])])
  /\ (~ together ->
      exists ka kb, groupEvents localeCompare [a; b] = [(ka, [a]); (kb, [b])]).
Proof.
  cbv zeta. unfold groupEvents, seedGroups. cbn [fold_left].
  rewrite groupStep_nil.
  set (fa := fallbackKey (getCorrelationKeys a) a).
  set (fb := fallbackKey (getCorrelationKeys b) b).
  split.
  - intros [(k & Ha & Hb)|(Ea & Eb & Eid)].
    + assert (Hfa : In fa (getCorrelationKeys a)).
      { destruct (fallbackKey_cases a) as [[E _]|H]; [|exact H].
        rewrite E in Ha. contradiction. }
      rewrite (groupStep_join fa [a] b (getCorrelationKeys_truthy a fa Hfa)).
      * exists fa. apply mergeRelatedGroups_single.
      * exists k, a. split; [exact Hb|split; [now left|exact Ha]].
    + rewrite groupStep_unrelated.
      * fold fb. assert (E : fa = fb).
        { unfold fa, fb. rewrite (fallbackKey_keyless a Ea),
            (fallbackKey_keyless b Eb), Eid. reflexivity. }
        rewrite E, String.eqb_refl. exists fb.
        apply mergeRelatedGroups_single.
      * intros key ev Hk. rewrite Eb in Hk. contradiction.
  - intro Hnot.
    assert (Hapart : forall key, In key (getCorrelationKeys b) ->
                                 ~ In key (getCorrelationKeys a)).
    { intros key Hb Ha. apply Hnot. left. eauto. }
    rewrite groupStep_unrelated
      by (intros key ev Hk [<-|[]]; now apply Hapart).
    fold fb.
    assert (Hne : fa <> fb).
    { intro E. unfold fa, fb in E.
      destruct (fallbackKey_cases a) as [[Ea Fa]|Ha],
               (fallbackKey_cases b) as [[Eb Fb]|Hb].
      - rewrite Fa, Fb in E. apply fallback_prefix_injective in E.
        apply Hnot. right. auto.
      - rewrite Fa in E. rewrite <- E in Hb.
        exact (key_not_fallback b _ _ Hb eq_refl).
      - rewrite Fb in E. rewrite E in Ha.
        exact (key_not_fallback a _ _ Ha eq_refl).
      - apply (Hapart _ Hb). now rewrite <- E. }
    apply String.eqb_neq in Hne as Hneb. rewrite Hneb.
    exists fa, fb.
    rewrite (mergeRelatedGroups_apart localeCompare fa fb [a] [b] Hne); [reflexivity|].
    destruct (groupsAreRelated [a] [b]) eqn:R; [|reflexivity].
    apply groupsAreRelated_spec in R as (k & x & y & [<-|[]] & [<-|[]] & Hx & Hy).
    exfalso. exact (Hapart k Hy Hx).
Qed.

End Pairs.

Lemma pair_grouping_witness :
  (exists k, groupEvents lexCompare [traceA; traceB]
             = [(k, Array_sort (byTime lexCompare) [traceA; traceB])])
  /\ (exists ka kb, groupEvents lexCompare [traceA; traceC]
                    = [(ka, [traceA]); (kb, [traceC])]).
Proof.
  split.
  - apply (proj1 (pair_grouping lexCompare traceA traceB)).
    left. exists "trace:X". split; left; reflexivity.
  - apply (proj2 (pair_grouping lexCompare traceA traceC)).
    intros [(k & [<-|[]] & [E|[]])|(E & _)]; discriminate E.
Defined.

(** X15: sharing a correlation key does not put two events into the same
    group in general, whatever the collation: the merge pass compares the
    other groups with the events the leading group had before the pass, so
    a chain of three seed groups is not joined into one. *)
Theorem grouping_not_transitive (localeCompare : string -> string -> Z) :
  ~ (forall evs x y,
       In x evs -> In y evs ->
       (exists k, In k (getCorrelationKeys x) /\ In k (getCorrelationKeys y)) ->
       exists g, In g (groupEvents localeCompare evs)
                 /\ In x (snd g) /\ In y (snd g)).
Proof.
  intro H.
  destruct (H chainBatch chainD chainK) as (g & Hg & Hd & Hk).
  - cbn. tauto.
  - cbn. tauto.
  - exists "commit:c1". split; cbn; tauto.
  - rewrite chainBatch_groups in Hg.
    destruct Hg as [<-|[<-|[]]]; cbn [snd] in Hd, Hk.
    + apply (Permutation_in _ (Array_sort_perm _ _)) in Hk.
      destruct Hk as [E|[E|[E|[]]]]; discriminate E.
    + apply (Permutation_in _ (Array_sort_perm _ _)) in Hd.
      destruct Hd as [E|[E|[]]]; discriminate E.
Qed.

(** *** The bounds of an episode follow the collation *)

Section Bounds.

Variable localeCompare : string -> string -> Z.
Variable ulid : nat -> string.
Variable Date_getTime : string -> option Z.
Variable Store : Type.


End Bounds.

